(** * Verification of the flet server's no-route handler and lifecycle code

    Source: [src/server/server/server.go] (package [server]): the [Start]
    function with its [NoRoute] fallback handler, listen-retry goroutine and
    shutdown sequence, and [websocketHandler].

    Go strings and [[]byte] values are both sequences of bytes; they are
    modelled as [list byte].  The functions of Go's [strings], [bytes] and
    [fmt] packages that the handler calls are modelled first, then the
    handler itself, then the properties. *)

From Stdlib Require Import ZArith Lia Permutation.
From Stdlib Require Import Strings.Byte.
From stdpp Require Import base strings list.

Set Default Proof Using "Type".

Abbreviation bytes := (list byte).

#[global] Instance byte_eq_decision : EqDecision byte := Byte.byte_eq_dec.

(** A Go string literal, as its bytes. *)
Definition lit (s : string) : bytes := String.list_byte_of_string s.

(** ** Go's [strings] and [bytes] packages *)

Module Go.

(** [strings.HasPrefix]:
    [len(s) >= len(prefix) && s[:len(prefix)] == prefix]. *)
Definition HasPrefix (s prefix : bytes) : bool :=
  bool_decide (length prefix <= length s)
  && bool_decide (take (length prefix) s = prefix).

(** [bytes.Index] / [strings.Index]: the index of the first instance of
    [sep] in [s]; Go's [-1] is [None] here. *)
Fixpoint Index (s sep : bytes) : option nat :=
  if HasPrefix s sep then Some 0
  else match s with
       | [] => None
       | _ :: s' => S <$> Index s' sep
       end.

(** [bytes.Count] for a non-empty [sep]: the number of non-overlapping
    instances of [sep] in [s].  Go scans with [Index] and stops at the first
    miss; the fuel bounds the scan, which consumes at least one byte per
    instance. *)
Fixpoint countLoop (fuel : nat) (s sep : bytes) : nat :=
  match fuel with
  | 0 => 0
  | S fuel' =>
      match Index s sep with
      | None => 0
      | Some i => S (countLoop fuel' (drop (i + length sep) s) sep)
      end
  end.

Definition Count (s sep : bytes) : nat := countLoop (length s) s sep.

(** The copy loop of [bytes.Replace]: [k] replacements, each at the next
    instance found by [Index] in the rest of the buffer. *)
Fixpoint replaceLoop (k : nat) (s old new : bytes) : bytes :=
  match k with
  | 0 => s
  | S k' =>
      match Index s old with
      | None => s
      | Some j =>
          take j s ++ new ++ replaceLoop k' (drop (j + length old) s) old new
      end
  end.

(** [bytes.Replace(s, old, new, n)] for a non-empty [old]: a copy of [s] with
    the first [n] non-overlapping instances of [old] replaced by [new]; all of
    them when [n < 0].
<<
    m := 0
    if n != 0 { m = Count(s, old) }
    if m == 0 { return append([]byte(nil), s...) }
    if n < 0 || m < n { n = m }
    ... n times: copy up to the next instance, copy new, skip old ...
>> *)
Definition Replace (s old new : bytes) (n : Z) : bytes :=
  let m := if (n =? 0)%Z then 0 else Count s old in
  if decide (m = 0) then s
  else
    let n' := if ((n <? 0) || (Z.of_nat m <? n))%Z then m else Z.to_nat n in
    replaceLoop n' s old new.

(** [strings.Trim(s, cutset)] for a cutset of ASCII bytes: [s] without its
    leading and trailing bytes that are in [cutset].  Go trims the right end
    first, then the left end. *)
Fixpoint trimLeft (s cutset : bytes) : bytes :=
  match s with
  | x :: s' => if bool_decide (x ∈ cutset) then trimLeft s' cutset else s
  | [] => []
  end.

Definition trimRight (s cutset : bytes) : bytes :=
  reverse (trimLeft (reverse s) cutset).

Definition Trim (s cutset : bytes) : bytes :=
  trimLeft (trimRight s cutset) cutset.

(** [strings.Split(s, sep)] for a non-empty [sep] ([genSplit] with
    [sepSave = 0] and [n = -1]): the pieces of [s] between the instances of
    [sep].  Go runs the loop [Count(s, sep)] times; the loop also ends at the
    first [Index] miss. *)
Fixpoint genSplit (fuel : nat) (s sep : bytes) : list bytes :=
  match fuel with
  | 0 => [s]
  | S fuel' =>
      match Index s sep with
      | None => [s]
      | Some m => take m s :: genSplit fuel' (drop (m + length sep) s) sep
      end
  end.

Definition Split (s sep : bytes) : list bytes :=
  genSplit (Count s sep) s sep.

(** [strings.Join(elems, sep)]. *)
Fixpoint Join (elems : list bytes) (sep : bytes) : bytes :=
  match elems with
  | [] => []
  | [e] => e
  | e :: rest => e ++ sep ++ Join rest sep
  end.

End Go.

(** An instance of [m] in [d] at byte offset [i]. *)
Definition occurs_at (m d : bytes) (i : nat) : Prop :=
  i + length m <= length d /\ take (length m) (drop i d) = m.

Definition occurs (m d : bytes) : Prop := exists i, occurs_at m d i.

#[global] Instance occurs_at_dec m d i : Decision (occurs_at m d i).
Proof. unfold occurs_at. apply _. Defined.

Section IndexFacts.
Implicit Types s d m sep old new : bytes.

Lemma HasPrefix_true s p : Go.HasPrefix s p = true <-> occurs_at p s 0.
Proof.
  unfold Go.HasPrefix, occurs_at. rewrite andb_true_iff, !bool_decide_eq_true.
  rewrite drop_0. simpl. reflexivity.
Qed.

Lemma occurs_at_S m x s i : occurs_at m (x :: s) (S i) <-> occurs_at m s i.
Proof. unfold occurs_at. simpl. rewrite <- Nat.succ_le_mono. reflexivity. Qed.

Lemma Index_Some s sep i :
  Go.Index s sep = Some i ->
  occurs_at sep s i /\ forall j, j < i -> ~ occurs_at sep s j.
Proof.
  revert i. induction s as [|x s IH]; intros i; simpl.
  - destruct (Go.HasPrefix [] sep) eqn:E; [|done].
    intros [= <-]. split; [by apply HasPrefix_true | lia].
  - destruct (Go.HasPrefix (x :: s) sep) eqn:E.
    + intros [= <-]. split; [by apply HasPrefix_true | lia].
    + destruct (Go.Index s sep) as [k|] eqn:Ek; simpl; [|done].
      intros [= <-]. destruct (IH k eq_refl) as [Hk Hlt]. split.
      * by apply occurs_at_S.
      * intros [|j] Hj.
        -- rewrite <- HasPrefix_true, E. done.
        -- rewrite occurs_at_S. apply Hlt. lia.
Qed.

Lemma Index_None s sep i : Go.Index s sep = None -> ~ occurs_at sep s i.
Proof.
  revert i. induction s as [|x s IH]; intros i; simpl.
  - destruct (Go.HasPrefix [] sep) eqn:E; [done|]. intros _.
    destruct i as [|i]; [rewrite <- HasPrefix_true, E; done|].
    unfold occurs_at. simpl. intros [Hl Ht].
    assert (length sep = 0) as Hz by lia.
    destruct sep; [|done]. by compute in E.
  - destruct (Go.HasPrefix (x :: s) sep) eqn:E; [done|].
    destruct (Go.Index s sep) as [k|] eqn:Ek; simpl; [done|]. intros _.
    destruct i as [|i]; [rewrite <- HasPrefix_true, E; done|].
    rewrite occurs_at_S. by apply IH.
Qed.

(** The first instance is the one [Index] finds. *)
Lemma Index_first s sep i :
  occurs_at sep s i -> (forall j, j < i -> ~ occurs_at sep s j) ->
  Go.Index s sep = Some i.
Proof.
  intros Hi Hlt. destruct (Go.Index s sep) as [k|] eqn:E.
  - apply Index_Some in E as [Hk Hklt]. f_equal.
    destruct (Nat.lt_trichotomy k i) as [?|[?|?]]; [|done|].
    + exfalso. by apply (Hlt k).
    + exfalso. by apply (Hklt i).
  - exfalso. by apply (Index_None _ _ i E).
Qed.

Lemma occurs_at_split m d i :
  occurs_at m d i -> d = take i d ++ m ++ drop (i + length m) d.
Proof.
  intros [Hl Ht]. rewrite <- (take_drop i d) at 1. f_equal.
  rewrite <- (take_drop (length m) (drop i d)), Ht. f_equal.
  rewrite drop_drop. done.
Qed.

Lemma occurs_at_app a m b : occurs_at m (a ++ m ++ b) (length a).
Proof.
  split; [rewrite !length_app; lia|].
  rewrite drop_app_length. by rewrite take_app_length.
Qed.

End IndexFacts.

(** ** Facts about [Count], [Replace], [Trim] and [Split] *)

Section GoFacts.
Implicit Types s d m sep old new cutset : bytes.

Lemma Index_Some_nonempty s sep i :
  sep <> [] -> Go.Index s sep = Some i -> i + length sep <= length s /\ s <> [].
Proof.
  intros Hsep [[Hl _] _]%Index_Some. split; [done|].
  intros ->. destruct sep; [done|]. simpl in Hl. lia.
Qed.

Lemma Index_nil sep : sep <> [] -> Go.Index [] sep = None.
Proof. destruct sep; done. Qed.

Lemma countLoop_enough sep f1 f2 s :
  sep <> [] -> length s <= f1 -> length s <= f2 ->
  Go.countLoop f1 s sep = Go.countLoop f2 s sep.
Proof.
  intros Hsep. revert f2 s. induction f1 as [|f1 IH]; intros f2 s H1 H2.
  - destruct s; [|simpl in H1; lia].
    destruct f2; cbn [Go.countLoop]; [done|]. by rewrite Index_nil.
  - destruct f2 as [|f2].
    + destruct s; [|simpl in H2; lia]. cbn [Go.countLoop].
      by rewrite Index_nil.
    + cbn [Go.countLoop]. destruct (Go.Index s sep) as [i|] eqn:E; [|done].
      apply Index_Some_nonempty in E as [Hl Hne]; [|done].
      assert (1 <= length sep) by (destruct sep; [done|simpl; lia]).
      f_equal. apply IH; rewrite length_drop; lia.
Qed.

Lemma Count_unfold s sep :
  sep <> [] ->
  Go.Count s sep =
    match Go.Index s sep with
    | None => 0
    | Some i => S (Go.Count (drop (i + length sep) s) sep)
    end.
Proof.
  intros Hsep. unfold Go.Count. destruct (Go.Index s sep) as [i|] eqn:E.
  - pose proof (Index_Some_nonempty _ _ _ Hsep E) as [Hl Hne].
    destruct s as [|x s]; [done|]. cbn [length Go.countLoop]. rewrite E.
    assert (1 <= length sep) by (destruct sep; [done|simpl; lia]).
    f_equal. apply countLoop_enough; [done| |done].
    rewrite length_drop. simpl in *. lia.
  - destruct s; cbn [length Go.countLoop]; [done|]. by rewrite E.
Qed.

Lemma Count_zero s sep :
  sep <> [] -> Go.Count s sep = 0 <-> Go.Index s sep = None.
Proof.
  intros Hsep. rewrite Count_unfold by done.
  destruct (Go.Index s sep); split; done.
Qed.

(** [bytes.Replace] with [n = 1], the only way the handler calls it. *)
Lemma Replace_once s old new :
  old <> [] ->
  Go.Replace s old new 1 =
    match Go.Index s old with
    | None => s
    | Some j => take j s ++ new ++ drop (j + length old) s
    end.
Proof.
  intros Hold. unfold Go.Replace. cbn [Z.eqb].
  destruct (decide (Go.Count s old = 0)) as [Hz|Hnz].
  - apply Count_zero in Hz; [|done]. by rewrite Hz.
  - replace ((1 <? 0)%Z || (Z.of_nat (Go.Count s old) <? 1)%Z) with false.
    2:{ symmetry. apply orb_false_iff. split; [done|]. apply Z.ltb_ge. lia. }
    change (Z.to_nat 1) with 1. cbn [Go.replaceLoop].
    destruct (Go.Index s old); done.
Qed.

Lemma Split_unfold s sep :
  sep <> [] ->
  Go.Split s sep =
    match Go.Index s sep with
    | None => [s]
    | Some i => take i s :: Go.Split (drop (i + length sep) s) sep
    end.
Proof.
  intros Hsep. unfold Go.Split. rewrite (Count_unfold s) by done.
  destruct (Go.Index s sep) as [i|] eqn:E; cbn [Go.genSplit]; rewrite ?E; done.
Qed.

Lemma Split_cons s sep : sep <> [] -> exists x l, Go.Split s sep = x :: l.
Proof.
  intros Hsep. rewrite Split_unfold by done.
  destruct (Go.Index s sep); eauto.
Qed.

Lemma trimLeft_head s cutset x r :
  Go.trimLeft s cutset = x :: r -> x ∉ cutset.
Proof.
  induction s as [|y s IH]; simpl; [done|].
  case_bool_decide as Hy; [done|]. by intros [= -> ->].
Qed.

Lemma trimLeft_suffix s cutset : exists p, s = p ++ Go.trimLeft s cutset.
Proof.
  induction s as [|y s [p IH]]; simpl; [by exists []|].
  case_bool_decide.
  - exists (y :: p). simpl. by f_equal.
  - by exists [].
Qed.

Lemma Trim_head s cutset x r : Go.Trim s cutset = x :: r -> x ∉ cutset.
Proof. apply trimLeft_head. Qed.

Lemma Trim_last s cutset y : last (Go.Trim s cutset) = Some y -> y ∉ cutset.
Proof.
  unfold Go.Trim. intros Hlast.
  destruct (trimLeft_suffix (Go.trimRight s cutset) cutset) as [p Hp].
  assert (last (Go.trimRight s cutset) = Some y) as HR.
  { rewrite Hp. destruct (Go.trimLeft (Go.trimRight s cutset) cutset) eqn:E;
      [done|]. by rewrite last_app_cons. }
  unfold Go.trimRight in HR. rewrite last_reverse in HR.
  destruct (Go.trimLeft (reverse s) cutset) eqn:E; [done|].
  simpl in HR. injection HR as ->. by eapply trimLeft_head.
Qed.

End GoFacts.

(** ** The program: [server.go] *)

(** *** Values the program reads from its environment *)

Definition dquote : byte := x22.

(** [fmt.Sprintf] with the verb [%v] on a [bool]. *)
Definition Sprint_bool (b : bool) : bytes :=
  if b then lit "true" else lit "false".

(** Package constants (lines 26-29). *)
Definition apiRoutePrefix : bytes := lit "/api".
Definition siteDefaultDocument : bytes := lit "index.html".

(** [net/http] status codes. *)
Definition StatusOK : Z := 200.
Definition StatusNotFound : Z := 404.
Definition StatusInternalServerError : Z := 500.

(** [time.Duration] is a count of nanoseconds. *)
Definition Duration := Z.
Definition Millisecond : Duration := 1000000%Z.
Definition Second : Duration := (1000 * Millisecond)%Z.

(** The fields of [url.URL], [http.Request] and [gin.Context] that the
    handlers read. *)
Record URL := { Path : bytes; RawQuery : bytes }.

Record Request := {
  RequestURI : bytes;   (* the unmodified request target of the request line *)
  Url : URL;            (* the parsed target: [Request.URL] *)
  UserAgent : bytes
}.

Record Context := {
  Req : Request;        (* [c.Request] *)
  ClientIP : bytes      (* [c.ClientIP()] *)
}.

(** Package [config] (not part of this file): the three settings the handler
    reads, as the values their accessor functions return. *)
Record Config := {
  RouteUrlStrategy : bytes;
  WebRenderer : bytes;
  UseColorEmoji : bool
}.

(** An [http.File] as [io.ReadAll] sees it: the bytes it delivers and whether
    reading ended in an error rather than at the end of the file. *)
Record File := { fileData : bytes; fileReadFails : bool }.

(** The asset store, [assetsFS]: [Open] returns a file and an error; the file
    is [nil] ([None]) when the document cannot be opened. *)
Record AssetsFS := { Open : bytes -> option File * bool }.

(** What a handler does with the response writer. *)
Inductive response :=
| Data (code : Z) (contentType : bytes) (data : bytes)   (* [c.Data] *)
| JSON (code : Z) (obj : list (bytes * bytes))           (* [c.JSON] of a [gin.H] *)
| AbortWithStatus (code : Z).                            (* [c.AbortWithStatus] *)

(** A computation that returns or panics. *)
Inductive result (A : Type) :=
| Ok (a : A)
| Panicked (reason : string).
Arguments Ok {A} a.
Arguments Panicked {A} reason.

#[global] Instance result_bind : MBind result := fun A B k r =>
  match r with
  | Ok a => k a
  | Panicked e => Panicked e
  end.

(** [io.ReadAll(r)]: calls [r.Read] until it fails or reaches the end of the
    file and returns what was read with the error.  [r.Read] on a [nil]
    reader is a nil dereference, a run-time panic. *)
Definition ReadAll (r : option File) : result (bytes * bool) :=
  match r with
  | None => Panicked "invalid memory address or nil pointer dereference"
  | Some f => Ok (fileData f, fileReadFails f)
  end.

(** The four placeholders of the shell document (lines 127-147). *)
Inductive placeholder :=
| PBaseHref | PRouteUrlStrategy | PWebRenderer | PColorEmoji.

#[global] Instance placeholder_eq_dec : EqDecision placeholder.
Proof. solve_decision. Defined.

Definition marker (p : placeholder) : bytes :=
  match p with
  | PBaseHref => lit "<base href=" ++ [dquote] ++ lit "/" ++ [dquote] ++ lit ">"
  | PRouteUrlStrategy => lit "%FLET_ROUTE_URL_STRATEGY%"
  | PWebRenderer => lit "<!-- flutterWebRenderer -->"
  | PColorEmoji => lit "<!-- useColorEmoji -->"
  end.

Definition value (cfg : Config) (baseHref : bytes) (p : placeholder) : bytes :=
  match p with
  | PBaseHref => lit "<base href=" ++ [dquote] ++ baseHref ++ [dquote] ++ lit ">"
  | PRouteUrlStrategy => RouteUrlStrategy cfg
  | PWebRenderer =>
      lit "<script>var flutterWebRenderer=" ++ [dquote] ++ WebRenderer cfg
        ++ [dquote] ++ lit ";</script>"
  | PColorEmoji =>
      lit "<script>var useColorEmoji=" ++ Sprint_bool (UseColorEmoji cfg)
        ++ lit ";</script>"
  end.

Section Server.
(** Package [store] (not part of this file): the page registry. *)
Variable Page : Type.
Variable GetPageByName : bytes -> option Page.

Variable cfg : Config.
Variable assetsFS : AssetsFS.

(** Lines 102-122: the base href for a request path. *)
Definition noRoute_baseHref (path : bytes) : bytes :=
  let baseHref := Go.Trim path (lit "/") in
  let baseHref :=
    if decide (baseHref <> []) then
      let hrefParts := Go.Split baseHref (lit "/") in
      if decide (1 < length hrefParts) then
        let baseHref := Go.Join (take 2 hrefParts) (lit "/") in
        match GetPageByName baseHref with
        | None => []   (* fallback to index page *)
        | Some _ => baseHref
        end
      else []
    else baseHref in
  if decide (baseHref <> []) then lit "/" ++ baseHref ++ lit "/"
  else lit "/".

(** Lines 127-147: the four substitutions, in the order of the source. *)
Definition noRoute_rewrite (baseHref indexData : bytes) : bytes :=
  (* base path *)
  let indexData :=
    Go.Replace indexData (marker PBaseHref) (value cfg baseHref PBaseHref) 1 in
  (* route URL strategy *)
  let indexData :=
    Go.Replace indexData (marker PRouteUrlStrategy)
      (value cfg baseHref PRouteUrlStrategy) 1 in
  (* web renderer *)
  let indexData :=
    if decide (WebRenderer cfg <> []) then
      Go.Replace indexData (marker PWebRenderer)
        (value cfg baseHref PWebRenderer) 1
    else indexData in
  (* color emoji *)
  Go.Replace indexData (marker PColorEmoji) (value cfg baseHref PColorEmoji) 1.

(** Lines 99-156: the handler registered with [router.NoRoute].  The errors
    of [assetsFS.Open] and [io.ReadAll] are assigned to [_]. *)
Definition noRouteHandler (c : Context) : result response :=
  if negb (Go.HasPrefix (RequestURI (Req c)) (apiRoutePrefix ++ lit "/")) then
    let baseHref := noRoute_baseHref (Path (Url (Req c))) in
    let '(index, _) := Open assetsFS siteDefaultDocument in
    '(indexData, _) ← ReadAll index;
    let indexData := noRoute_rewrite baseHref indexData in
    Ok (Data StatusOK (lit "text/html") indexData)
  else
    (* API not found *)
    Ok (JSON StatusNotFound [(lit "message", lit "API endpoint not found")]).

(** [gin.Default()] (line 50) installs the Recovery middleware around every
    handler: a panic is recovered and answered with status 500. *)
Definition withRecovery (r : result response) : response :=
  match r with
  | Ok resp => resp
  | Panicked _ => AbortWithStatus StatusInternalServerError
  end.

End Server.

(** ** Page-name resolution (specification section 4.1) *)

(** The resolver as the specification words it:
    [resolve(path, knownPage) -> BaseHref]. *)
Definition resolve (path : bytes) (knownPage : bytes -> bool) : bytes :=
  let trimmed := Go.Trim path (lit "/") in
  if decide (trimmed = []) then lit "/"
  else
    let segments := Go.Split trimmed (lit "/") in
    if decide (length segments < 2) then lit "/"
    else
      let candidate := Go.Join (take 2 segments) (lit "/") in
      if knownPage candidate then lit "/" ++ candidate ++ lit "/"
      else lit "/".

(** The segments of a request path: the pieces of the trimmed path between
    slashes. *)
Definition segments (path : bytes) : list bytes :=
  Go.Split (Go.Trim path (lit "/")) (lit "/").

Definition nonempty_segments (path : bytes) : list bytes :=
  filter (fun seg => seg <> []) (segments path).

Section SplitSlash.
Variable c : byte.

Lemma occurs_at_single_head (t : bytes) :
  occurs_at [c] t 0 -> head t = Some c.
Proof.
  intros [_ Ht]. rewrite drop_0 in Ht. destruct t as [|x t]; [done|].
  simpl in Ht. rewrite take_0 in Ht. by injection Ht as ->.
Qed.

Lemma Split_last_nonempty n : forall s : bytes,
  length s <= n -> s <> [] -> last s <> Some c ->
  exists y, last (Go.Split s [c]) = Some y /\ y <> [].
Proof.
  induction n as [|n IH]; intros s Hn Hne Hlast.
  - destruct s; [done|]. simpl in Hn. lia.
  - rewrite Split_unfold by done.
    destruct (Go.Index s [c]) as [i|] eqn:E; [|by exists s].
    pose proof (Index_Some _ _ _ E) as [Hocc _].
    pose proof (occurs_at_split _ _ _ Hocc) as Hs.
    pose proof Hocc as [Hlen _]. cbn [length] in *.
    set (r := drop (i + 1) s) in *.
    assert (r <> []) as Hr.
    { intros Hr. apply Hlast. rewrite Hs, Hr. simpl.
      by rewrite last_snoc. }
    assert (last r = last s) as Hlr.
    { rewrite (f_equal last Hs). destruct r as [|x r]; [done|].
      change (take i s ++ [c] ++ x :: r) with (take i s ++ c :: x :: r).
      by rewrite last_app_cons, last_cons_cons. }
    destruct (IH r) as (y & Hy & Hyne).
    + subst r. rewrite length_drop. lia.
    + done.
    + by rewrite Hlr.
    + exists y. split; [|done].
      destruct (Split_cons r [c]) as (x & l & Hxl); [done|].
      rewrite Hxl in *. by rewrite last_cons_cons.
Qed.

(** A trimmed path that splits in two or more pieces has a first and a last
    piece that are not empty. *)
Lemma Split_trimmed_nonempty (t : bytes) :
  t <> [] -> head t <> Some c -> last t <> Some c ->
  1 < length (Go.Split t [c]) ->
  2 <= length (filter (fun seg : bytes => seg <> []) (Go.Split t [c])).
Proof.
  intros Hne Hhead Hlast. rewrite Split_unfold by done.
  destruct (Go.Index t [c]) as [i|] eqn:E; [|simpl; lia]. intros _.
  pose proof (Index_Some _ _ _ E) as [Hocc _].
  pose proof (occurs_at_split _ _ _ Hocc) as Hs.
  pose proof Hocc as [Hlen _]. cbn [length] in *.
  assert (i <> 0) as Hi.
  { intros ->. by apply Hhead, occurs_at_single_head. }
  assert (take i t <> []) as Htake.
  { destruct t; [done|]. destruct i; done. }
  set (r := drop (i + 1) t) in *.
  assert (r <> []) as Hr.
  { intros Hr. apply Hlast. rewrite Hs, Hr. simpl. by rewrite last_snoc. }
  assert (last r = last t) as Hlr.
  { rewrite (f_equal last Hs). destruct r as [|x r]; [done|].
    change (take i t ++ [c] ++ x :: r) with (take i t ++ c :: x :: r).
    by rewrite last_app_cons, last_cons_cons. }
  destruct (Split_last_nonempty (length r) r) as (y & Hy & Hyne);
    [done|done|by rewrite Hlr|].
  rewrite filter_cons_True by done. cbn [length].
  apply last_Some in Hy as [l' Hl']. rewrite Hl', filter_app, length_app.
  rewrite filter_cons_True by done. simpl. lia.
Qed.

End SplitSlash.

Section Resolution.
Variable Page : Type.
Variable GetPageByName : bytes -> option Page.

(** A page identifier is registered when the registry returns a page. *)
Definition knownPage (p : bytes) : bool :=
  bool_decide (is_Some (GetPageByName p)).

Lemma Join_two_nonempty (parts : list bytes) (sep : bytes) :
  1 < length parts -> sep <> [] -> Go.Join (take 2 parts) sep <> [].
Proof.
  destruct parts as [|a [|b parts]]; simpl; [lia|lia|]. intros _ Hsep.
  destruct a, sep; done.
Qed.

Lemma Trim_slash_ends (path : bytes) :
  head (Go.Trim path (lit "/")) <> Some x2f /\
  last (Go.Trim path (lit "/")) <> Some x2f.
Proof.
  split.
  - destruct (Go.Trim path (lit "/")) as [|x r] eqn:E; [done|].
    apply Trim_head in E. simpl. intros [= ->]. apply E. by left.
  - intros Hl. apply Trim_last in Hl. apply Hl. by left.
Qed.

Lemma noRoute_baseHref_eq_resolve (path : bytes) :
  noRoute_baseHref Page GetPageByName path = resolve path knownPage.
Proof.
  unfold noRoute_baseHref, resolve, knownPage.
  set (t := Go.Trim path (lit "/")).
  set (parts := Go.Split t (lit "/")).
  destruct (decide (t = [])) as [He|Hne].
  - rewrite He. by rewrite decide_False by (by intros ?).
  - destruct (decide (t <> [])) as [_|?]; [|done].
    destruct (decide (length parts < 2)) as [Hl|Hl];
      destruct (decide (1 < length parts)) as [Hl'|Hl']; try lia.
    + by rewrite decide_False by (by intros ?).
    + pose proof (Join_two_nonempty parts (lit "/") Hl') as Hj.
      destruct (GetPageByName (Go.Join (take 2 parts) (lit "/"))) eqn:E.
      * rewrite bool_decide_eq_true_2 by done.
        rewrite decide_True; [done|]. by apply Hj.
      * rewrite bool_decide_eq_false_2 by (by intros [? ?]).
        by rewrite decide_False by (by intros ?).
Qed.

(** C1. The base href computed by the no-route handler is the one of the
    specification's [resolve]: for every request path, with the segments of
    the path being the pieces of the slash-trimmed path between slashes,
    - a path with fewer than two non-empty segments gets ["/"];
    - a path with two or more segments whose first two, joined by a slash,
      are a registered page identifier [p] gets ["/p/"];
    - a path with two or more segments whose first two are not a registered
      identifier gets ["/"]. *)
Theorem noRoute_baseHref_resolve (path : bytes) :
  noRoute_baseHref Page GetPageByName path = resolve path knownPage
  /\ (length (nonempty_segments path) < 2 ->
      noRoute_baseHref Page GetPageByName path = lit "/")
  /\ (forall p : bytes,
        2 <= length (segments path) ->
        p = Go.Join (take 2 (segments path)) (lit "/") ->
        (is_Some (GetPageByName p) ->
           noRoute_baseHref Page GetPageByName path = lit "/" ++ p ++ lit "/")
        /\ (GetPageByName p = None ->
              noRoute_baseHref Page GetPageByName path = lit "/")).
Proof.
  split; [apply noRoute_baseHref_eq_resolve|].
  rewrite noRoute_baseHref_eq_resolve.
  unfold resolve, nonempty_segments, segments, knownPage.
  pose proof (Trim_slash_ends path) as [Hhead Hlast].
  set (t := Go.Trim path (lit "/")) in *.
  set (parts := Go.Split t (lit "/")).
  split.
  - intros Hfew. destruct (decide (t = [])) as [|Hne]; [done|].
    destruct (decide (length parts < 2)) as [|Hl]; [done|]. exfalso.
    pose proof (Split_trimmed_nonempty x2f t Hne Hhead Hlast) as Hsplit.
    change (Go.Split t [x2f]) with parts in Hsplit. lia.
  - intros p Hlen ->.
    assert (t <> []) as Hne.
    { intros He. subst parts. rewrite He in Hlen. vm_compute in Hlen. lia. }
    rewrite (decide_False (P := t = [])) by done.
    rewrite (decide_False (P := length parts < 2)) by lia. split.
    + intros Hsome. by rewrite bool_decide_eq_true_2.
    + intros Hnone. rewrite bool_decide_eq_false_2; [done|].
      rewrite Hnone. by intros [? ?].
Qed.

End Resolution.

(** ** Instances of a marker around a spliced text *)

(** [agree x y]: [x] and [y] are equal on their common length. *)
Fixpoint agree (x y : bytes) : bool :=
  match x, y with
  | a :: x', b :: y' => bool_decide (a = b) && agree x' y'
  | _, _ => true
  end.

(** [overlaps w m]: in some document an instance of [m] shares a byte with a
    text [w], or spans an empty [w].  Either [m] starts inside [w] (at offset
    [o] of [w]) or [w] starts inside [m] (at offset [o >= 1] of [m]). *)
Definition overlaps (w m : bytes) : bool :=
  existsb (fun o => agree (drop o w) m) (seq 0 (length w))
  || existsb (fun o => agree w (drop o m)) (seq 1 (length m - 1)).

Section Overlap.
Implicit Types a b w m v d : bytes.

Lemma agree_take x m b : take (length m) (x ++ b) = m -> agree x m = true.
Proof.
  revert m. induction x as [|c x IH]; intros [|e m]; simpl; try done.
  intros [= -> Hm]. rewrite bool_decide_eq_true_2 by done. simpl. by apply IH.
Qed.

(** An instance of [m] in [a ++ w ++ b] lies in [a] or in [b] when [m]
    cannot overlap [w]. *)
Lemma no_overlap_sound w m a b i :
  overlaps w m = false -> occurs_at m (a ++ w ++ b) i ->
  i + length m <= length a \/ length a + length w <= i.
Proof.
  intros Hov [Hlen Hocc].
  destruct (decide (i + length m <= length a)) as [|Hl]; [by left|].
  destruct (decide (length a + length w <= i)) as [|Hr]; [by right|].
  exfalso. apply orb_false_iff in Hov as [Hin Hout].
  destruct (decide (length a <= i)) as [Hai|Hai].
  - (* [m] starts inside [w] *)
    rewrite <- not_true_iff_false in Hin. apply Hin.
    apply existsb_exists. exists (i - length a). split.
    + apply in_seq. lia.
    + apply (agree_take _ _ b).
      rewrite drop_app_ge in Hocc by done.
      by rewrite drop_app_le in Hocc by lia.
  - (* [w] starts inside [m] *)
    rewrite <- not_true_iff_false in Hout. apply Hout.
    apply existsb_exists. exists (length a - i). split.
    + apply in_seq. lia.
    + apply (agree_take _ _ b). rewrite length_drop.
      rewrite drop_app_le in Hocc by lia.
      set (o := length a - i).
      assert (length (drop i a) = o) as Ho by (rewrite length_drop; done).
      rewrite <- (drop_app_length' (drop i a) (w ++ b) o) at 1 by done.
      rewrite take_drop_commute.
      replace (o + (length m - o)) with (length m) by lia.
      by rewrite Hocc.
Qed.

Lemma occurs_at_app_l m a x i :
  i + length m <= length a -> occurs_at m (a ++ x) i <-> occurs_at m a i.
Proof.
  intros Hi. unfold occurs_at. rewrite length_app.
  rewrite drop_app_le by lia.
  rewrite take_app_le by (rewrite length_drop; lia). split.
  - intros [_ ?]. done.
  - intros [_ ?]. split; [lia|done].
Qed.

Lemma occurs_at_app_r m a x i :
  length a <= i -> occurs_at m (a ++ x) i <-> occurs_at m x (i - length a).
Proof.
  intros Hi. unfold occurs_at. rewrite length_app.
  rewrite drop_app_ge by done. split.
  - intros [? ?]. split; [lia|done].
  - intros [? ?]. split; [lia|done].
Qed.

(** The instances of [m] in [a ++ w ++ b]. *)
Lemma occurs_at_around w m a b i :
  overlaps w m = false ->
  occurs_at m (a ++ w ++ b) i <->
  (i + length m <= length a /\ occurs_at m a i)
  \/ (length a + length w <= i /\ occurs_at m b (i - length a - length w)).
Proof.
  intros Hov. split.
  - intros Hocc. destruct (no_overlap_sound _ _ _ _ _ Hov Hocc) as [Hl|Hr].
    + left. split; [done|]. by apply occurs_at_app_l in Hocc.
    + right. split; [done|].
      apply (occurs_at_app_r m a (w ++ b)) in Hocc; [|lia].
      apply (occurs_at_app_r m w b) in Hocc; [done|lia].
  - intros [[Hl Hocc]|[Hr Hocc]].
    + by apply occurs_at_app_l.
    + apply occurs_at_app_r; [lia|]. apply occurs_at_app_r; [lia|]. done.
Qed.

(** Where [Index] finds [m] in [a ++ w ++ b]. *)
Lemma Index_around w m a b :
  overlaps w m = false -> m <> [] ->
  Go.Index (a ++ w ++ b) m =
    match Go.Index a m with
    | Some i => Some i
    | None => (fun j => length a + length w + j) <$> Go.Index b m
    end.
Proof.
  intros Hov Hm.
  assert (0 < length m) as Hlm by (destruct m; [done|simpl; lia]).
  destruct (Go.Index a m) as [i|] eqn:Ea.
  - apply Index_Some in Ea as [Hi Hfirst]. pose proof Hi as [Hlen _].
    apply Index_first.
    + apply occurs_at_around; [done|]. by left.
    + intros j Hj Hocc. apply (Hfirst j Hj).
      apply occurs_at_around in Hocc as [[_ ?]|[? _]]; [done|lia|done].
  - destruct (Go.Index b m) as [j|] eqn:Eb; simpl.
    + apply Index_Some in Eb as [Hj Hfirst]. apply Index_first.
      * apply occurs_at_around; [done|]. right. split; [lia|].
        by replace (length a + length w + j - length a - length w) with j
          by lia.
      * intros k Hk Hocc.
        apply occurs_at_around in Hocc as [[_ Hocc]|[Hge Hocc]]; [| |done].
        -- by apply (Index_None _ _ k Ea).
        -- apply (Hfirst (k - length a - length w)); [lia|done].
    + destruct (Go.Index (a ++ w ++ b) m) as [k|] eqn:E; [|done].
      apply Index_Some in E as [Hocc _].
      apply occurs_at_around in Hocc as [[_ Hocc]|[_ Hocc]]; [| |done].
      * by apply Index_None with (i := k) in Ea.
      * by apply Index_None with (i := k - length a - length w) in Eb.
Qed.

End Overlap.

(** ** Two single replacements commute when their texts cannot overlap *)

Section ReplaceCommute.
Implicit Types a b d m v : bytes.

Lemma splice_at a m b v :
  take (length a) (a ++ m ++ b) ++ v ++ drop (length a + length m) (a ++ m ++ b)
  = a ++ v ++ b.
Proof.
  rewrite take_app_length. f_equal. f_equal.
  rewrite drop_app_add. by rewrite drop_app_length.
Qed.

Lemma Replace_once_at a m b v :
  m <> [] -> Go.Index (a ++ m ++ b) m = Some (length a) ->
  Go.Replace (a ++ m ++ b) m v 1 = a ++ v ++ b.
Proof.
  intros Hm Hi. rewrite Replace_once by done. rewrite Hi. apply splice_at.
Qed.

Lemma Index_Some_split d m i :
  Go.Index d m = Some i ->
  exists a b, d = a ++ m ++ b /\ length a = i.
Proof.
  intros [Hocc _]%Index_Some. exists (take i d), (drop (i + length m) d).
  split; [by apply occurs_at_split|].
  destruct Hocc as [Hlen _]. rewrite length_take. lia.
Qed.

Section Ordered.
Variables mA vA mB vB : bytes.
Hypothesis HmA : mA <> [].
Hypothesis HmB : mB <> [].
Hypothesis HAB : overlaps mA mB = false.
Hypothesis HBA : overlaps mB mA = false.
Hypothesis HvAB : overlaps vA mB = false.
Hypothesis HvBA : overlaps vB mA = false.

(** The first [mA] comes before the first [mB]: both orders of the two
    replacements give the same document. *)
Lemma Replace_once_ordered a1 a2 b :
  Go.Index (a1 ++ mA ++ a2 ++ mB ++ b) mA = Some (length a1) ->
  Go.Index (a1 ++ mA ++ a2 ++ mB ++ b) mB
    = Some (length a1 + length mA + length a2) ->
  Go.Replace (Go.Replace (a1 ++ mA ++ a2 ++ mB ++ b) mA vA 1) mB vB 1
    = a1 ++ vA ++ a2 ++ vB ++ b
  /\ Go.Replace (Go.Replace (a1 ++ mA ++ a2 ++ mB ++ b) mB vB 1) mA vA 1
    = a1 ++ vA ++ a2 ++ vB ++ b.
Proof using All.
  intros HiA HiB.
  assert (0 < length mA) as HlA by (destruct mA; [done|simpl; lia]).
  assert (0 < length mB) as HlB by (destruct mB; [done|simpl; lia]).
  split.
  - rewrite (Replace_once_at a1 mA (a2 ++ mB ++ b) vA) by done.
    (* the first [mB] of the rest is still the first one *)
    rewrite (Index_around mA mB a1 (a2 ++ mB ++ b)) in HiB by done.
    destruct (Go.Index a1 mB) as [i|] eqn:E1.
    { apply Index_Some in E1 as [[Hl _] _]. injection HiB as ->. lia. }
    destruct (Go.Index (a2 ++ mB ++ b) mB) as [j|] eqn:E2; [|done].
    simpl in HiB. injection HiB as HiB.
    assert (j = length a2) as -> by lia.
    replace (a1 ++ vA ++ a2 ++ mB ++ b) with ((a1 ++ vA ++ a2) ++ mB ++ b)
      by (by rewrite <- !app_assoc).
    rewrite Replace_once_at; [by rewrite <- !app_assoc|done|].
    rewrite <- !app_assoc.
    rewrite (Index_around vA mB a1 (a2 ++ mB ++ b)) by done.
    rewrite E1, E2. simpl. f_equal. rewrite !length_app. lia.
  - replace (a1 ++ mA ++ a2 ++ mB ++ b) with ((a1 ++ mA ++ a2) ++ mB ++ b)
      in * by (by rewrite <- !app_assoc).
    rewrite (Replace_once_at (a1 ++ mA ++ a2) mB b vB); [|done|].
    2:{ rewrite HiB. f_equal. rewrite !length_app. lia. }
    (* the first [mA] lies before the replaced [mB] *)
    rewrite (Index_around mB mA (a1 ++ mA ++ a2) b) in HiA by done.
    destruct (Go.Index (a1 ++ mA ++ a2) mA) as [i|] eqn:E1.
    2:{ destruct (Go.Index b mA); simpl in HiA; [|done].
        injection HiA as HiA. rewrite !length_app in HiA. lia. }
    injection HiA as ->.
    rewrite <- !app_assoc.
    replace (a1 ++ mA ++ a2 ++ vB ++ b) with (a1 ++ mA ++ (a2 ++ vB ++ b))
      by done.
    rewrite Replace_once_at; [done|done|].
    replace (a1 ++ mA ++ a2 ++ vB ++ b) with ((a1 ++ mA ++ a2) ++ vB ++ b)
      by (by rewrite <- !app_assoc).
    rewrite (Index_around vB mA (a1 ++ mA ++ a2) b) by done.
    by rewrite E1.
Qed.
End Ordered.

(** Two single replacements whose markers and values cannot overlap the
    other marker commute, on every document. *)
Lemma Replace_once_commute m1 v1 m2 v2 d :
  m1 <> [] -> m2 <> [] ->
  overlaps m1 m2 = false -> overlaps m2 m1 = false ->
  overlaps v1 m2 = false -> overlaps v2 m1 = false ->
  Go.Replace (Go.Replace d m1 v1 1) m2 v2 1
  = Go.Replace (Go.Replace d m2 v2 1) m1 v1 1.
Proof.
  intros Hm1 Hm2 H12 H21 Hv12 Hv21.
  destruct (Go.Index d m1) as [i1|] eqn:E1;
    destruct (Go.Index d m2) as [i2|] eqn:E2.
  - destruct (Index_Some_split _ _ _ E1) as (a & b & -> & <-).
    pose proof E2 as E2'.
    rewrite (Index_around m1 m2 a b) in E2' by done.
    destruct (Go.Index a m2) as [j|] eqn:Ea.
    + (* the first [m2] comes before the first [m1] *)
      injection E2' as ->.
      destruct (Index_Some_split _ _ _ Ea) as (a1 & a2 & -> & <-).
      rewrite <- !app_assoc in *.
      destruct (Replace_once_ordered m2 v2 m1 v1 Hm2 Hm1 H21 H12 Hv21 Hv12
                  a1 a2 b) as [-> ->]; [done| |done].
      rewrite E1. f_equal. rewrite !length_app. lia.
    + (* the first [m1] comes before the first [m2] *)
      destruct (Go.Index b m2) as [j|] eqn:Eb; [|done].
      simpl in E2'. injection E2' as <-.
      destruct (Index_Some_split _ _ _ Eb) as (b1 & b2 & -> & <-).
      destruct (Replace_once_ordered m1 v1 m2 v2 Hm1 Hm2 H12 H21 Hv12 Hv21
                  a b1 b2) as [-> ->]; done.
  - (* only [m1] occurs *)
    rewrite (Replace_once d m2) by done. rewrite E2.
    destruct (Index_Some_split _ _ _ E1) as (a & b & -> & <-).
    rewrite Replace_once_at by done.
    rewrite Replace_once by done.
    rewrite (Index_around m1 m2 a b) in E2 by done.
    rewrite (Index_around v1 m2 a b) by done.
    destruct (Go.Index a m2); [done|].
    destruct (Go.Index b m2); done.
  - (* only [m2] occurs *)
    rewrite (Replace_once d m1) by done. rewrite E1.
    destruct (Index_Some_split _ _ _ E2) as (a & b & -> & <-).
    rewrite Replace_once_at by done.
    rewrite (Replace_once (a ++ v2 ++ b) m1) by done.
    rewrite (Index_around m2 m1 a b) in E1 by done.
    rewrite (Index_around v2 m1 a b) by done.
    destruct (Go.Index a m1); [done|].
    destruct (Go.Index b m1); done.
  - rewrite (Replace_once d m1), (Replace_once d m2) by done.
    rewrite E1, E2. rewrite (Replace_once d m1), (Replace_once d m2) by done.
    by rewrite E1, E2.
Qed.

End ReplaceCommute.

(** ** The shell rewriter (specification section 4.2) *)

(** The renderer substitution is guarded by a test that the renderer name
    is not the empty string; the other three are unconditional. *)
Definition emitted (cfg : Config) (p : placeholder) : bool :=
  match p with
  | PWebRenderer => bool_decide (WebRenderer cfg <> [])
  | _ => true
  end.

(** One substitution statement of the handler. *)
Definition substitute (cfg : Config) (baseHref : bytes) (p : placeholder)
    (indexData : bytes) : bytes :=
  if emitted cfg p then
    Go.Replace indexData (marker p) (value cfg baseHref p) 1
  else indexData.

(** The substitutions of a list of placeholders, one after the other. *)
Definition substitute_all (cfg : Config) (baseHref : bytes)
    (order : list placeholder) (indexData : bytes) : bytes :=
  foldl (fun d p => substitute cfg baseHref p d) indexData order.

(** The order of the source. *)
Definition placeholders : list placeholder :=
  [PBaseHref; PRouteUrlStrategy; PWebRenderer; PColorEmoji].

(** [i] is the offset of the first instance of [m] in [d]. *)
Definition first_occurrence (m d : bytes) (i : nat) : Prop :=
  occurs_at m d i /\ forall j, j < i -> ~ occurs_at m d j.

Definition at_most_once (m d : bytes) : Prop :=
  forall i j, occurs_at m d i -> occurs_at m d j -> i = j.

(** No emitted value can overlap the marker of another placeholder. *)
Definition inert (cfg : Config) (baseHref : bytes) : bool :=
  forallb (fun p =>
    forallb (fun q =>
      bool_decide (p = q) || negb (emitted cfg p)
      || negb (overlaps (value cfg baseHref p) (marker q)))
      placeholders)
    placeholders.

Section Rewriter.
Variable cfg : Config.
Variable baseHref : bytes.

Lemma marker_nonempty p : marker p <> [].
Proof. by destruct p. Qed.

Lemma markers_disjoint p q : p <> q -> overlaps (marker p) (marker q) = false.
Proof. destruct p, q; intros H; try done; by vm_compute. Qed.

Lemma noRoute_rewrite_steps indexData :
  noRoute_rewrite cfg baseHref indexData
  = substitute_all cfg baseHref placeholders indexData.
Proof.
  unfold noRoute_rewrite, substitute_all, placeholders, substitute. simpl.
  destruct (decide (WebRenderer cfg <> [])) as [H|H].
  - by rewrite bool_decide_eq_true_2.
  - by rewrite bool_decide_eq_false_2.
Qed.

Lemma substitute_absent (p : placeholder) (indexData : bytes) :
  ~ occurs (marker p) indexData ->
  substitute cfg baseHref p indexData = indexData.
Proof.
  intros Hno. unfold substitute. destruct (emitted cfg p); [|done].
  rewrite Replace_once by apply marker_nonempty.
  destruct (Go.Index indexData (marker p)) as [i|] eqn:E; [|done].
  exfalso. apply Hno. exists i. by apply Index_Some in E as [? _].
Qed.

Lemma substitute_at (p : placeholder) (a b : bytes) :
  Go.Index (a ++ marker p ++ b) (marker p) = Some (length a) ->
  substitute cfg baseHref p (a ++ marker p ++ b)
  = if emitted cfg p then a ++ value cfg baseHref p ++ b
    else a ++ marker p ++ b.
Proof.
  intros Hi. unfold substitute. destruct (emitted cfg p); [|done].
  apply Replace_once_at; [apply marker_nonempty|done].
Qed.

(** C2. The rewrite step is the four substitutions, one after the other, and
    each of them replaces at most the first instance of its marker: its
    output is the document itself, or the document with the text at the
    first instance replaced by the value and the bytes before and after it
    kept (later instances included).  When the marker does not occur the
    document is returned unchanged. *)
Theorem substitute_first_occurrence (p : placeholder) (indexData : bytes) :
  noRoute_rewrite cfg baseHref indexData
    = substitute cfg baseHref PColorEmoji
        (substitute cfg baseHref PWebRenderer
           (substitute cfg baseHref PRouteUrlStrategy
              (substitute cfg baseHref PBaseHref indexData)))
  /\ (~ occurs (marker p) indexData ->
     substitute cfg baseHref p indexData = indexData)
  /\ (substitute cfg baseHref p indexData = indexData
      \/ exists i,
           first_occurrence (marker p) indexData i
           /\ substitute cfg baseHref p indexData
              = take i indexData ++ value cfg baseHref p
                  ++ drop (i + length (marker p)) indexData).
Proof.
  split; [apply noRoute_rewrite_steps|].
  split; [apply substitute_absent|].
  destruct (Go.Index indexData (marker p)) as [i|] eqn:E.
  - destruct (emitted cfg p) eqn:Ee.
    + right. exists i. split; [by apply Index_Some|].
      unfold substitute. rewrite Ee.
      rewrite Replace_once by apply marker_nonempty. by rewrite E.
    + left. unfold substitute. by rewrite Ee.
  - left. apply substitute_absent. intros [i Hi].
    by apply (Index_None _ _ i E).
Qed.

End Rewriter.

(** ** Order of the substitutions *)

Section OccurrenceTransfer.
Implicit Types a b w m : bytes.

(** Replacing a text that cannot overlap [m] by another such text keeps the
    instances of [m]. *)
Lemma occurs_at_outside w m a b i :
  (i + length m <= length a /\ occurs_at m a i)
  \/ (length a + length w <= i /\ occurs_at m b (i - length a - length w)) ->
  occurs_at m (a ++ w ++ b) i.
Proof.
  intros [[Hl Hocc]|[Hr Hocc]].
  - by apply occurs_at_app_l.
  - apply occurs_at_app_r; [lia|]. apply occurs_at_app_r; [lia|]. done.
Qed.

Lemma occurs_swap w1 w2 m a b :
  overlaps w1 m = false ->
  occurs m (a ++ w1 ++ b) -> occurs m (a ++ w2 ++ b).
Proof.
  intros H1 [i Hi].
  apply occurs_at_around in Hi as [[Hl Hi]|[Hr Hi]]; [| |done].
  - exists i. apply occurs_at_outside. by left.
  - exists (length a + length w2 + (i - length a - length w1)).
    apply occurs_at_outside. right. split; [lia|].
    by replace (length a + length w2 + (i - length a - length w1)
                - length a - length w2) with (i - length a - length w1) by lia.
Qed.

Lemma at_most_once_swap w1 w2 m a b :
  m <> [] -> overlaps w1 m = false -> overlaps w2 m = false ->
  at_most_once m (a ++ w1 ++ b) -> at_most_once m (a ++ w2 ++ b).
Proof.
  intros Hm H1 H2 Honce i j Hi Hj.
  assert (0 < length m) as Hlm by (destruct m; [done|simpl; lia]).
  assert (forall k, occurs_at m (a ++ w2 ++ b) k ->
            exists k', occurs_at m (a ++ w1 ++ b) k'
              /\ ((k + length m <= length a /\ k' = k)
                  \/ (length a + length w2 <= k
                      /\ k' = length a + length w1 + (k - length a - length w2))))
    as Hback.
  { intros k Hk. apply occurs_at_around in Hk as [[Hl Hk]|[Hr Hk]]; [| |done].
    - exists k. split; [|by left]. apply occurs_at_around; [done|]. by left.
    - exists (length a + length w1 + (k - length a - length w2)).
      split; [|right; done]. apply occurs_at_around; [done|]. right.
      split; [lia|].
      by replace (length a + length w1 + (k - length a - length w2)
                  - length a - length w1) with (k - length a - length w2) by lia. }
  destruct (Hback i Hi) as (i' & Hi' & Hci).
  destruct (Hback j Hj) as (j' & Hj' & Hcj).
  pose proof (Honce i' j' Hi' Hj'). lia.
Qed.

End OccurrenceTransfer.

(** A decision procedure for [at_most_once]. *)
Definition occurrences (m d : bytes) : list nat :=
  filter (fun i => occurs_at m d i) (seq 0 (S (length d))).

Lemma elem_of_occurrences m d i : i ∈ occurrences m d <-> occurs_at m d i.
Proof.
  unfold occurrences. rewrite list_elem_of_filter, list_elem_of_In, in_seq.
  split; [by intros [? _]|]. intros H. split; [done|].
  destruct H as [Hl _]. lia.
Qed.

Lemma at_most_once_check m d : length (occurrences m d) <= 1 -> at_most_once m d.
Proof.
  intros Hlen i j Hi%elem_of_occurrences Hj%elem_of_occurrences.
  destruct (occurrences m d) as [|x [|y l]]; simpl in Hlen; [|..].
  - by apply not_elem_of_nil in Hi.
  - apply list_elem_of_singleton in Hi, Hj. congruence.
  - lia.
Qed.

Lemma foldl_commute_Permutation {A B} (f : B -> A -> B) (l l' : list A) :
  (forall x y d, f (f d x) y = f (f d y) x) ->
  Permutation l l' -> forall d, foldl f d l = foldl f d l'.
Proof.
  intros Hc Hp. induction Hp as [|x l l' _ IH|x y l|l1 l2 l3 _ IH1 _ IH2];
    intros d; simpl.
  - done.
  - apply IH.
  - by rewrite Hc.
  - by rewrite IH1.
Qed.

Section Order.
Variable cfg : Config.
Variable baseHref : bytes.
Hypothesis Hinert : inert cfg baseHref = true.

Lemma inert_spec p q :
  p <> q -> emitted cfg p = true ->
  overlaps (value cfg baseHref p) (marker q) = false.
Proof using Hinert.
  intros Hpq Hp. unfold inert in Hinert.
  rewrite forallb_forall in Hinert.
  assert (forall r, In r placeholders) as Hall.
  { intros r. unfold placeholders. destruct r; simpl; auto. }
  specialize (Hinert p (Hall p)). rewrite forallb_forall in Hinert.
  specialize (Hinert q (Hall q)). rewrite Hp in Hinert.
  rewrite bool_decide_eq_false_2 in Hinert by done. simpl in Hinert.
  by apply negb_true_iff in Hinert.
Qed.

Lemma substitute_commute p q d :
  substitute cfg baseHref q (substitute cfg baseHref p d)
  = substitute cfg baseHref p (substitute cfg baseHref q d).
Proof using Hinert.
  destruct (decide (p = q)) as [->|Hpq]; [done|].
  unfold substitute.
  destruct (emitted cfg p) eqn:Ep; [|done].
  destruct (emitted cfg q) eqn:Eq; [|done].
  apply Replace_once_commute;
    auto using marker_nonempty, markers_disjoint, inert_spec.
Qed.

(** A substitution for another placeholder keeps the instances of a
    marker. *)
Lemma substitute_keeps p q d :
  p <> q ->
  (occurs (marker p) (substitute cfg baseHref q d) <-> occurs (marker p) d)
  /\ (at_most_once (marker p) d ->
      at_most_once (marker p) (substitute cfg baseHref q d)).
Proof using Hinert.
  intros Hpq. unfold substitute.
  destruct (emitted cfg q) eqn:Eq; [|done].
  rewrite Replace_once by apply marker_nonempty.
  destruct (Go.Index d (marker q)) as [i|] eqn:E; [|done].
  destruct (Index_Some_split _ _ _ E) as (a & b & -> & <-).
  rewrite splice_at.
  assert (overlaps (marker q) (marker p) = false) as Hm
    by (apply markers_disjoint; done).
  assert (overlaps (value cfg baseHref q) (marker p) = false) as Hv
    by (apply inert_spec; done).
  split; [split|]; try by apply occurs_swap.
  apply at_most_once_swap; auto using marker_nonempty.
Qed.

Lemma substitute_all_keeps p before d :
  p ∉ before ->
  (occurs (marker p) (substitute_all cfg baseHref before d)
     <-> occurs (marker p) d)
  /\ (at_most_once (marker p) d ->
      at_most_once (marker p) (substitute_all cfg baseHref before d)).
Proof using Hinert.
  revert d. induction before as [|q before IH]; intros d Hnotin; [done|].
  apply not_elem_of_cons in Hnotin as [Hpq Hnotin].
  unfold substitute_all in *. simpl.
  destruct (IH (substitute cfg baseHref q d) Hnotin) as [IHo IHa].
  destruct (substitute_keeps p q d Hpq) as [Ho Ha].
  split; [by rewrite IHo|]. auto.
Qed.

End Order.

Lemma placeholders_NoDup : NoDup placeholders.
Proof. apply (bool_decide_unpack _). by vm_compute. Qed.

(** A configuration of the usual kind, and a shell document that holds each
    placeholder once. *)
Definition cfg_usual : Config :=
  {| RouteUrlStrategy := lit "path";
     WebRenderer := lit "canvaskit";
     UseColorEmoji := false |}.

Definition shell_usual : bytes :=
  lit "<html><head>" ++ marker PBaseHref
    ++ lit "<script>var s='%FLET_ROUTE_URL_STRATEGY%';</script>"
    ++ marker PWebRenderer ++ marker PColorEmoji
    ++ lit "</head><body></body></html>".

(** A route-URL strategy setting that spells the color-emoji marker, and a
    shell document that holds the strategy placeholder only. *)
Definition cfg_marker_strategy : Config :=
  {| RouteUrlStrategy := lit "<!-- useColorEmoji -->";
     WebRenderer := lit "canvaskit";
     UseColorEmoji := true |}.

Definition shell_strategy_only : bytes :=
  lit "<head>%FLET_ROUTE_URL_STRATEGY%</head>".

(** C3, as stated, fails: in [shell_strategy_only] every placeholder occurs
    at most once, yet the order of the source and the order that runs the
    color-emoji substitution first give different documents.  In the order of
    the source the color-emoji step replaces a marker that the source
    document does not hold. *)
Lemma substitute_all_order_matters :
  (forall p, at_most_once (marker p) shell_strategy_only)
  /\ Permutation [PColorEmoji; PBaseHref; PRouteUrlStrategy; PWebRenderer]
       placeholders
  /\ ~ occurs (marker PColorEmoji) shell_strategy_only
  /\ substitute_all cfg_marker_strategy (lit "/") placeholders
       shell_strategy_only
     = lit "<head><script>var useColorEmoji=true;</script></head>"
  /\ substitute_all cfg_marker_strategy (lit "/")
       [PColorEmoji; PBaseHref; PRouteUrlStrategy; PWebRenderer]
       shell_strategy_only
     = lit "<head><!-- useColorEmoji --></head>"
  /\ substitute_all cfg_marker_strategy (lit "/") placeholders
       shell_strategy_only
     <> substitute_all cfg_marker_strategy (lit "/")
          [PColorEmoji; PBaseHref; PRouteUrlStrategy; PWebRenderer]
          shell_strategy_only.
Proof.
  split; [|split; [|split; [|split; [|split]]]].
  - intros p. apply at_most_once_check. destruct p; vm_compute; lia.
  - unfold placeholders.
    change [PColorEmoji; PBaseHref; PRouteUrlStrategy; PWebRenderer]
      with ([PColorEmoji] ++ [PBaseHref; PRouteUrlStrategy; PWebRenderer]).
    change [PBaseHref; PRouteUrlStrategy; PWebRenderer; PColorEmoji]
      with ([PBaseHref; PRouteUrlStrategy; PWebRenderer] ++ [PColorEmoji]).
    apply Permutation_app_comm.
  - intros [i Hi%elem_of_occurrences]. vm_compute in Hi.
    by apply not_elem_of_nil in Hi.
  - by vm_compute.
  - by vm_compute.
  - by vm_compute.
Qed.

(** C3, amended.  When no emitted value can overlap the marker of another
    placeholder ([inert]), then for every shell document in which each
    placeholder occurs at most once and every order of the four
    substitutions:
    - the output is the output of the order of the source;
    - when its turn comes, a placeholder that the source document holds
      occurs exactly once in the current document and that instance is
      replaced by the value (left in place when its substitution is not
      emitted, which is the renderer with an empty name), and a placeholder
      that the source document does not hold is left alone. *)
Theorem substitute_all_order_independent
    (cfg : Config) (baseHref indexData : bytes) (order : list placeholder) :
  inert cfg baseHref = true ->
  (forall p, at_most_once (marker p) indexData) ->
  Permutation order placeholders ->
  substitute_all cfg baseHref order indexData
    = noRoute_rewrite cfg baseHref indexData
  /\ forall before p after, order = before ++ p :: after ->
       let d := substitute_all cfg baseHref before indexData in
       (~ occurs (marker p) indexData -> substitute cfg baseHref p d = d)
       /\ (occurs (marker p) indexData ->
           exists a b,
             d = a ++ marker p ++ b
             /\ (forall i, occurs_at (marker p) d i -> i = length a)
             /\ substitute cfg baseHref p d
                = if emitted cfg p then a ++ value cfg baseHref p ++ b else d).
Proof.
  intros Hinert Honce Hperm. split.
  - rewrite noRoute_rewrite_steps. unfold substitute_all.
    apply foldl_commute_Permutation; [|done].
    intros x y d. by apply substitute_commute.
  - intros before p after Horder d.
    assert (p ∉ before) as Hnotin.
    { pose proof placeholders_NoDup as Hnd. rewrite <- Hperm, Horder in Hnd.
      apply NoDup_app in Hnd as (_ & Hdisj & _). intros Hin.
      apply (Hdisj p Hin). by left. }
    destruct (substitute_all_keeps cfg baseHref Hinert p before indexData Hnotin)
      as [Hocc Hamo].
    fold d in Hocc, Hamo. specialize (Hamo (Honce p)). split.
    + intros Hno. apply substitute_absent. by rewrite Hocc.
    + intros Hyes. apply Hocc in Hyes as [i Hi].
      assert (Go.Index d (marker p) = Some i) as HI.
      { apply Index_first; [done|]. intros j Hj Hoj.
        pose proof (Hamo _ _ Hi Hoj). lia. }
      destruct (Index_Some_split _ _ _ HI) as (a & b & Hd & Hla).
      exists a, b. split; [done|]. split.
      * intros k Hk. rewrite Hla. by apply Hamo.
      * rewrite Hd in HI |- *. rewrite <- Hla in HI. by apply substitute_at.
Qed.

Lemma substitute_all_order_independent_witness :
  inert cfg_usual (lit "/a/b/") = true
  /\ substitute_all cfg_usual (lit "/a/b/")
       [PColorEmoji; PWebRenderer; PBaseHref; PRouteUrlStrategy] shell_usual
     = noRoute_rewrite cfg_usual (lit "/a/b/") shell_usual.
Proof.
  split; [by vm_compute|].
  refine (proj1 (substitute_all_order_independent cfg_usual (lit "/a/b/")
            shell_usual [PColorEmoji; PWebRenderer; PBaseHref; PRouteUrlStrategy]
            _ _ _)).
  - by vm_compute.
  - intros p. apply at_most_once_check. destruct p; vm_compute; lia.
  - unfold placeholders.
    apply (perm_trans (l' := [PWebRenderer; PColorEmoji; PBaseHref; PRouteUrlStrategy]));
      [apply perm_swap|].
    change [PWebRenderer; PColorEmoji; PBaseHref; PRouteUrlStrategy]
      with ([PWebRenderer; PColorEmoji] ++ [PBaseHref; PRouteUrlStrategy]).
    change [PBaseHref; PRouteUrlStrategy; PWebRenderer; PColorEmoji]
      with ([PBaseHref; PRouteUrlStrategy] ++ [PWebRenderer; PColorEmoji]).
    apply Permutation_app_comm.
Defined.

(** ** The renderer placeholder with no renderer configured *)

Section NoRenderer.
Variable cfg : Config.
Variable baseHref : bytes.

(** A substitution for another placeholder, whatever its value, leaves an
    instance of a marker in the document: the markers cannot overlap. *)
Lemma substitute_survives p q d :
  p <> q -> occurs (marker p) d ->
  occurs (marker p) (substitute cfg baseHref q d).
Proof.
  intros Hpq Hocc. unfold substitute. destruct (emitted cfg q); [|done].
  rewrite Replace_once by apply marker_nonempty.
  destruct (Go.Index d (marker q)) as [i|] eqn:E; [|done].
  destruct (Index_Some_split _ _ _ E) as (a & b & -> & <-).
  rewrite splice_at. eapply occurs_swap; [|done]. by apply markers_disjoint.
Qed.

(** C4. With an empty renderer name the rewrite step does not touch the
    renderer marker: the renderer substitution is the identity (no script
    is put in), the rewrite is the other three substitutions alone, and an
    instance of the marker in the shell document is still in the output. *)
Theorem renderer_marker_untouched (indexData : bytes) :
  WebRenderer cfg = [] ->
  (forall d, substitute cfg baseHref PWebRenderer d = d)
  /\ noRoute_rewrite cfg baseHref indexData
     = substitute_all cfg baseHref [PBaseHref; PRouteUrlStrategy; PColorEmoji]
         indexData
  /\ (occurs (marker PWebRenderer) indexData ->
      occurs (marker PWebRenderer) (noRoute_rewrite cfg baseHref indexData)).
Proof.
  intros Hempty.
  assert (forall d, substitute cfg baseHref PWebRenderer d = d) as Hid.
  { intros d. unfold substitute, emitted. rewrite Hempty.
    by rewrite bool_decide_eq_false_2 by (by intros ?). }
  split; [done|]. split.
  - rewrite noRoute_rewrite_steps. unfold substitute_all, placeholders.
    simpl. by rewrite Hid.
  - intros Hocc. rewrite noRoute_rewrite_steps.
    unfold substitute_all, placeholders. cbn [foldl].
    repeat (apply substitute_survives; [done|]). rewrite Hid.
    repeat (apply substitute_survives; [done|]). done.
Qed.

End NoRenderer.

Definition cfg_no_renderer : Config :=
  {| RouteUrlStrategy := lit "hash"; WebRenderer := []; UseColorEmoji := true |}.

Lemma renderer_marker_untouched_witness :
  WebRenderer cfg_no_renderer = []
  /\ noRoute_rewrite cfg_no_renderer (lit "/") shell_usual
     = substitute_all cfg_no_renderer (lit "/")
         [PBaseHref; PRouteUrlStrategy; PColorEmoji] shell_usual.
Proof.
  split; [done|].
  exact (proj1 (proj2 (renderer_marker_untouched cfg_no_renderer (lit "/")
                         shell_usual eq_refl))).
Defined.

(** ** How the server fills [RequestURI] and [URL.Path]

    [net/http] stores the request target of the request line unchanged in
    [RequestURI] and parses it with [url.ParseRequestURI] into [URL].  For a
    target in origin form (a path that starts with a slash, then an optional
    [?query]) the parser cuts the query at the first [?] and percent-decodes
    the path.  Other forms of target are outside this model ([None]). *)

Module NetURL.

Definition ishex (c : byte) : bool :=
  let n := Byte.to_N c in
  ((48 <=? n) && (n <=? 57) || (97 <=? n) && (n <=? 102)
   || (65 <=? n) && (n <=? 70))%N.

Definition unhex (c : byte) : N :=
  let n := Byte.to_N c in
  (if (48 <=? n) && (n <=? 57) then n - 48
   else if (97 <=? n) && (n <=? 102) then n - 97 + 10
   else if (65 <=? n) && (n <=? 70) then n - 65 + 10
   else 0)%N.

(** [url.unescape(s, encodePath)]: every [%] must be followed by two hex
    digits, which it replaces by the byte they spell; [None] is Go's
    [EscapeError]. *)
Fixpoint unescape (s : bytes) : option bytes :=
  match s with
  | [] => Some []
  | c :: rest =>
      if decide (c = x25) then
        match rest with
        | h :: l :: rest' =>
            if ishex h && ishex l then
              b ← Byte.of_N (unhex h * 16 + unhex l);
              s' ← unescape rest';
              Some (b :: s')
            else None
        | _ => None
        end
      else
        s' ← unescape rest;
        Some (c :: s')
  end.

(** ASCII control bytes, which the parser rejects. *)
Definition isCTL (c : byte) : bool :=
  let n := Byte.to_N c in ((n <? 32) || (n =? 127))%N.

Definition ParseRequestURI (rawURL : bytes) : option URL :=
  if existsb isCTL rawURL then None
  else if Go.HasPrefix rawURL (lit "/") then
    let '(rest, query) :=
      match Go.Index rawURL (lit "?") with
      | Some i => (take i rawURL, drop (i + 1) rawURL)
      | None => (rawURL, [])
      end in
    path ← unescape rest;
    Some {| Path := path; RawQuery := query |}
  else None.

(** [http.readRequest]. *)
Definition readRequest (target userAgent : bytes) : option Request :=
  u ← ParseRequestURI target;
  Some {| RequestURI := target; Url := u; UserAgent := userAgent |}.

End NetURL.

(** ** The no-route handler: API gate, resolution, shell *)

(** The body of the JSON response for an unknown API route. *)
Definition apiNotFound : response :=
  JSON StatusNotFound [(lit "message", lit "API endpoint not found")].

(** A request for an unknown API path whose target spells the [a] of [api]
    as [%61], as [net/http] delivers it. *)
Definition req_encoded_api : Request :=
  {| RequestURI := lit "/%61pi/nope";
     Url := {| Path := lit "/api/nope"; RawQuery := [] |};
     UserAgent := lit "curl/8.5.0" |}.

Definition req_with_query : Request :=
  {| RequestURI := lit "/p/app?tab=1";
     Url := {| Path := lit "/p/app"; RawQuery := lit "tab=1" |};
     UserAgent := lit "curl/8.5.0" |}.

Lemma readRequest_encoded_api :
  NetURL.readRequest (lit "/%61pi/nope") (lit "curl/8.5.0")
  = Some req_encoded_api.
Proof. by vm_compute. Qed.

Lemma readRequest_with_query :
  NetURL.readRequest (lit "/p/app?tab=1") (lit "curl/8.5.0")
  = Some req_with_query.
Proof. by vm_compute. Qed.

(** An asset store that holds the shell document, and one that does not. *)
Definition assets_usual : AssetsFS :=
  {| Open := fun name =>
       if decide (name = lit "index.html") then
         (Some {| fileData := shell_usual; fileReadFails := false |}, false)
       else (None, true) |}.

Definition assets_no_shell : AssetsFS :=
  {| Open := fun _ => (None, true) |}.

(** A request whose target needs no decoding and has no query. *)
Definition ctx_of (target : bytes) : Context :=
  {| Req := {| RequestURI := target;
               Url := {| Path := target; RawQuery := [] |};
               UserAgent := lit "curl/8.5.0" |};
     ClientIP := lit "192.0.2.7" |}.

(** A registry with the one page [dashboard/settings]. *)
Definition registry_usual (name : bytes) : option unit :=
  if decide (name = lit "dashboard/settings") then Some tt else None.

(** [encoding/json] on a [gin.H] whose values are strings that need no
    escaping: the body that [c.JSON] writes. *)
Definition jsonBody (obj : list (bytes * bytes)) : bytes :=
  lit "{"
  ++ Go.Join
       (map (fun kv => [dquote] ++ kv.1 ++ [dquote] ++ lit ":"
                       ++ [dquote] ++ kv.2 ++ [dquote]) obj)
       (lit ",")
  ++ lit "}".

Definition responseBody (r : response) : bytes :=
  match r with
  | Data _ _ data => data
  | JSON _ obj => jsonBody obj
  | AbortWithStatus _ => []
  end.

Section Handler.
Variable Page : Type.
Variable GetPageByName : bytes -> option Page.
Variable cfg : Config.
Variable assetsFS : AssetsFS.

Abbreviation handler := (noRouteHandler Page GetPageByName cfg assetsFS).

(** The branch is chosen by the raw request target alone. *)
Lemma noRouteHandler_api (c : Context) :
  Go.HasPrefix (RequestURI (Req c)) (lit "/api/") = true ->
  handler c = Ok apiNotFound.
Proof.
  intros H. unfold noRouteHandler.
  change (apiRoutePrefix ++ lit "/") with (lit "/api/"). by rewrite H.
Qed.

(** Outside the API prefix the handler reads the shell document; with a
    document that opens, the response is the rewritten shell for the base
    href of the decoded path. *)
Lemma noRouteHandler_shell (c : Context) (index : File) (err : bool) :
  Go.HasPrefix (RequestURI (Req c)) (lit "/api/") = false ->
  Open assetsFS siteDefaultDocument = (Some index, err) ->
  handler c
  = Ok (Data StatusOK (lit "text/html")
          (noRoute_rewrite cfg
             (noRoute_baseHref Page GetPageByName (Path (Url (Req c))))
             (fileData index))).
Proof.
  intros H Hopen. unfold noRouteHandler.
  change (apiRoutePrefix ++ lit "/") with (lit "/api/"). rewrite H. simpl.
  by rewrite Hopen.
Qed.

(** C10. The handler answers 404 exactly when the raw request target starts
    with ["/api/"]; otherwise the base href is resolved from the decoded
    path.  The raw target keeps the query string and the percent-encoding,
    so the two strings differ for some requests: the target ["/%61pi/nope"]
    has the decoded path ["/api/nope"], under the API prefix, and is served
    the shell with status 200, not the API 404. *)
Theorem noRoute_gate_reads_raw_target :
  (forall c : Context,
     noRouteHandler Page GetPageByName cfg assetsFS c = Ok apiNotFound
     <-> Go.HasPrefix (RequestURI (Req c)) (lit "/api/") = true)
  /\ (forall (c : Context) (index : File) (err : bool),
        Go.HasPrefix (RequestURI (Req c)) (lit "/api/") = false ->
        Open assetsFS siteDefaultDocument = (Some index, err) ->
        noRouteHandler Page GetPageByName cfg assetsFS c
        = Ok (Data StatusOK (lit "text/html")
                (noRoute_rewrite cfg
                   (noRoute_baseHref Page GetPageByName (Path (Url (Req c))))
                   (fileData index))))
  /\ (NetURL.readRequest (lit "/p/app?tab=1") (lit "curl/8.5.0")
        = Some req_with_query
      /\ RequestURI req_with_query = lit "/p/app?tab=1"
      /\ Path (Url req_with_query) = lit "/p/app")
  /\ (NetURL.readRequest (lit "/%61pi/nope") (lit "curl/8.5.0")
        = Some req_encoded_api
      /\ RequestURI req_encoded_api <> Path (Url req_encoded_api)
      /\ Go.HasPrefix (Path (Url req_encoded_api)) (lit "/api/") = true
      /\ forall (ip : bytes) (index : File) (err : bool),
           Open assetsFS siteDefaultDocument = (Some index, err) ->
           noRouteHandler Page GetPageByName cfg assetsFS
             {| Req := req_encoded_api; ClientIP := ip |}
           = Ok (Data StatusOK (lit "text/html")
                   (noRoute_rewrite cfg
                      (noRoute_baseHref Page GetPageByName (lit "/api/nope"))
                      (fileData index)))).
Proof.
  split; [|split; [|split]].
  - intros c. split; [|apply noRouteHandler_api].
    destruct (Go.HasPrefix (RequestURI (Req c)) (lit "/api/")) eqn:E; [done|].
    unfold noRouteHandler.
    change (apiRoutePrefix ++ lit "/") with (lit "/api/"). rewrite E. simpl.
    destruct (Open assetsFS siteDefaultDocument) as [[index|] err]; done.
  - apply noRouteHandler_shell.
  - split; [apply readRequest_with_query|done].
  - split; [apply readRequest_encoded_api|]. split; [done|]. split; [done|].
    intros ip index err Hopen.
    by rewrite (noRouteHandler_shell _ index err).
Qed.

(** The two answers of the handler, for a request that reaches it:
    - when the raw request target starts with ["/api/"] the response is
      status 404 with the JSON body [{"message":"API endpoint not found"}];
    - when the raw request target does not start with ["/api/"] and the
      shell document opens, the response is the rewritten shell, for the base
      href resolved from the decoded path, with content type [text/html] and
      status 200. *)
Theorem noRoute_api_gate (c : Context) :
  (Go.HasPrefix (RequestURI (Req c)) (apiRoutePrefix ++ lit "/") = true ->
   noRouteHandler Page GetPageByName cfg assetsFS c
     = Ok (JSON 404 [(lit "message", lit "API endpoint not found")])
   /\ responseBody (JSON 404 [(lit "message", lit "API endpoint not found")])
      = lit "{" ++ [dquote] ++ lit "message" ++ [dquote] ++ lit ":"
          ++ [dquote] ++ lit "API endpoint not found" ++ [dquote] ++ lit "}")
  /\ (forall (index : File) (err : bool),
        Go.HasPrefix (RequestURI (Req c)) (apiRoutePrefix ++ lit "/") = false ->
        Open assetsFS siteDefaultDocument = (Some index, err) ->
        noRouteHandler Page GetPageByName cfg assetsFS c
        = Ok (Data 200 (lit "text/html")
                (noRoute_rewrite cfg
                   (noRoute_baseHref Page GetPageByName (Path (Url (Req c))))
                   (fileData index)))).
Proof.
  split.
  - intros H. split; [by apply noRouteHandler_api|done].
  - intros index err H Hopen. by apply (noRouteHandler_shell c index err).
Qed.

End Handler.

(** Lines 80-96: the routes [Start] registers, each with its method; the
    group [api] prefixes its routes with [apiRoutePrefix]. *)
Definition routes : list (bytes * bytes) :=
  [ (lit "GET", lit "/ws");
    (lit "GET", apiRoutePrefix ++ lit "/");
    (lit "GET", apiRoutePrefix ++ lit "/oauth/redirect");
    (lit "PUT", apiRoutePrefix ++ lit "/upload") ].

(** A path the router may answer without the no-route handler: a registered
    path, whatever its method, or one that differs from a registered path
    by a last slash only, which the router redirects. *)
Definition routed (path : bytes) : bool :=
  existsb (fun r => bool_decide (r.2 = path)
                    || bool_decide (r.2 = path ++ lit "/")
                    || bool_decide (r.2 ++ lit "/" = path)) routes.

(** The registered paths and their variants by a last slash are routed; so
    [GET /api/oauth/redirect/] never reaches the no-route handler. *)
Example routed_registered_paths :
  routed (lit "/ws") = true
  /\ routed (lit "/api") = true
  /\ routed (lit "/api/") = true
  /\ routed (lit "/api/oauth/redirect") = true
  /\ routed (lit "/api/oauth/redirect/") = true
  /\ routed (lit "/api/upload") = true
  /\ routed (lit "/api/nope") = false
  /\ routed (lit "/dashboard/settings") = false.
Proof. repeat split; by vm_compute. Qed.

(** C5, on the code: the request for ["/%61pi/nope"] matches no registered
    route and its path, ["/api/nope"], is under the API prefix, so it is an
    unknown API route and is to be answered with status 404.  The handler
    tests the raw target on line 101, where line 102 and the router read the
    decoded path, and answers with the shell and status 200. *)
Theorem noRouteHandler_encoded_api_path_gets_shell :
  NetURL.readRequest (lit "/%61pi/nope") (lit "curl/8.5.0")
    = Some req_encoded_api
  /\ routed (Path (Url req_encoded_api)) = false
  /\ Go.HasPrefix (Path (Url req_encoded_api)) (apiRoutePrefix ++ lit "/")
     = true
  /\ Go.HasPrefix (RequestURI req_encoded_api) (apiRoutePrefix ++ lit "/")
     = false
  /\ noRouteHandler unit registry_usual cfg_usual assets_usual
       {| Req := req_encoded_api; ClientIP := lit "192.0.2.7" |}
     = Ok (Data StatusOK (lit "text/html")
             (noRoute_rewrite cfg_usual (lit "/") shell_usual))
  /\ noRouteHandler unit registry_usual cfg_usual assets_usual
       {| Req := req_encoded_api; ClientIP := lit "192.0.2.7" |}
     <> Ok apiNotFound.
Proof. repeat split; by vm_compute. Qed.

(** C6, on the code: when the shell document does not open, every request
    outside the API prefix makes the handler read a [nil] file.  It panics;
    the Recovery middleware answers with status 500.  No root shell is
    served. *)
Theorem noRouteHandler_missing_shell_panics
    (Page : Type) (GetPageByName : bytes -> option Page) (cfg : Config)
    (assetsFS : AssetsFS) (c : Context) (err : bool) :
  Go.HasPrefix (RequestURI (Req c)) (apiRoutePrefix ++ lit "/") = false ->
  Open assetsFS siteDefaultDocument = (None, err) ->
  noRouteHandler Page GetPageByName cfg assetsFS c
    = Panicked "invalid memory address or nil pointer dereference"
  /\ withRecovery (noRouteHandler Page GetPageByName cfg assetsFS c)
     = AbortWithStatus 500.
Proof.
  intros Hgate Hopen. unfold noRouteHandler. rewrite Hgate. simpl.
  by rewrite Hopen.
Qed.

Lemma noRouteHandler_missing_shell_panics_witness :
  withRecovery
    (noRouteHandler unit registry_usual cfg_usual assets_no_shell
       (ctx_of (lit "/unknown/thing")))
  = AbortWithStatus 500.
Proof.
  exact (proj2 (noRouteHandler_missing_shell_panics unit registry_usual
                  cfg_usual assets_no_shell (ctx_of (lit "/unknown/thing"))
                  true eq_refl eq_refl)).
Defined.

(** ** The lifecycle code: listen loop, shutdown, WebSocket upgrade

    The calls this code makes to the outside (the [net/http] server, the
    clock, the logger, the WebSocket upgrader, the session layer) are the
    nodes of a program tree; [run] executes a tree against the answers of the
    outside and returns the calls made, in order, and the result. *)

(** A Go [error] value, as far as the code tells them apart. *)
Inductive error :=
| nil
| ErrServerClosed                 (* [http.ErrServerClosed] *)
| DeadlineExceeded                (* [context.DeadlineExceeded] *)
| ErrOther (text : string).

#[global] Instance error_eq_dec : EqDecision error.
Proof. solve_decision. Defined.

(** An upgraded connection, and the session layer's wrapper of it. *)
Record Conn := { connId : nat }.
Record WebSocket := { wsConn : Conn }.

Inductive prog (R : Type) : Type :=
| Ret (r : R)
| ListenAndServe (k : error -> prog R)                 (* [srv.ListenAndServe()] *)
| Sleep (d : Duration) (k : prog R)                    (* [time.Sleep] *)
| Fatal (msg : string) (err : error)                   (* [log.Fatal], [log.Fatalf]: log and exit *)
| Println (msg : string) (k : prog R)                  (* [log.Println] *)
| Errorln (msg : string) (err : error) (k : prog R)    (* [log.Errorln] *)
| AwaitDone (k : prog R)                               (* [<-ctx.Done()] *)
| Shutdown (timeout : Duration) (k : error -> prog R)  (* [srv.Shutdown] under [context.WithTimeout] *)
| Cancel (k : prog R)                                  (* the deferred [cancel()] *)
| WgDone (k : prog R)                                  (* the deferred [wg.Done()] *)
| SetCheckOrigin (f : Request -> bool) (k : prog R)    (* [upgrader.CheckOrigin = f] *)
| Upgrade (r : Request) (k : Conn + error -> prog R)   (* [upgrader.Upgrade] *)
| NewWebSocket (conn : Conn) (k : WebSocket -> prog R) (* [page_connection.NewWebSocket] *)
| NewClient (wsc : WebSocket) (clientIP userAgent : bytes) (k : prog R). (* [page.NewClient] *)

Arguments Ret {R} r.
Arguments ListenAndServe {R} k.
Arguments Sleep {R} d k.
Arguments Fatal {R} msg err.
Arguments Println {R} msg k.
Arguments Errorln {R} msg err k.
Arguments AwaitDone {R} k.
Arguments Shutdown {R} timeout k.
Arguments Cancel {R} k.
Arguments WgDone {R} k.
Arguments SetCheckOrigin {R} f k.
Arguments Upgrade {R} r k.
Arguments NewWebSocket {R} conn k.
Arguments NewClient {R} wsc clientIP userAgent k.

Fixpoint prog_bind {A B} (k : A -> prog B) (p : prog A) : prog B :=
  match p with
  | Ret r => k r
  | ListenAndServe k' => ListenAndServe (fun e => prog_bind k (k' e))
  | Sleep d k' => Sleep d (prog_bind k k')
  | Fatal msg err => Fatal msg err
  | Println msg k' => Println msg (prog_bind k k')
  | Errorln msg err k' => Errorln msg err (prog_bind k k')
  | AwaitDone k' => AwaitDone (prog_bind k k')
  | Shutdown t k' => Shutdown t (fun e => prog_bind k (k' e))
  | Cancel k' => Cancel (prog_bind k k')
  | WgDone k' => WgDone (prog_bind k k')
  | SetCheckOrigin f k' => SetCheckOrigin f (prog_bind k k')
  | Upgrade r k' => Upgrade r (fun x => prog_bind k (k' x))
  | NewWebSocket c k' => NewWebSocket c (fun w => prog_bind k (k' w))
  | NewClient w ip ua k' => NewClient w ip ua (prog_bind k k')
  end.

#[global] Instance prog_mbind : MBind prog := @prog_bind.
#[global] Instance prog_mret : MRet prog := @Ret.

(** The calls of a run, with the answers they got. *)
Inductive event :=
| EListenAndServe (result : error)
| ESleep (d : Duration)
| EFatal (msg : string) (err : error)
| EPrintln (msg : string)
| EErrorln (msg : string) (err : error)
| EAwaitDone
| EShutdown (timeout : Duration) (result : error)
| ECancel
| EWgDone
| ESetCheckOrigin
| EUpgrade (r : Request) (result : Conn + error)
| ENewWebSocket (conn : Conn)
| ENewClient (wsc : WebSocket) (clientIP userAgent : bytes).

(** The outside: what the [n]-th call of [ListenAndServe] returns, what
    [Shutdown] returns for a timeout, and what the upgrade handshake gives
    for a request once its origin is accepted.  [checkOrigin] is the
    upgrader's [CheckOrigin] field, a package-level variable. *)
Record World := {
  listenResult : nat -> error;
  shutdownResult : Duration -> error;
  handshake : Request -> Conn + error;
  listenCalls : nat;
  checkOrigin : Request -> bool
}.

Definition originNotAllowed : error :=
  ErrOther "websocket: request origin not allowed by Upgrader.CheckOrigin".

(** The world after one more call of [ListenAndServe], and after an
    assignment to [upgrader.CheckOrigin]. *)
Definition tick (w : World) : World :=
  {| listenResult := listenResult w;
     shutdownResult := shutdownResult w;
     handshake := handshake w;
     listenCalls := S (listenCalls w);
     checkOrigin := checkOrigin w |}.

Definition withCheckOrigin (f : Request -> bool) (w : World) : World :=
  {| listenResult := listenResult w;
     shutdownResult := shutdownResult w;
     handshake := handshake w;
     listenCalls := listenCalls w;
     checkOrigin := f |}.

(** [upgrader.Upgrade]: a request whose origin [CheckOrigin] refuses is
    answered with an error; otherwise the handshake decides. *)
Definition upgradeResult (w : World) (r : Request) : Conn + error :=
  if checkOrigin w r then handshake w r else inr originNotAllowed.

Definition emit {R} (e : event) (res : list event * option R)
    : list event * option R :=
  (e :: res.1, res.2).

(** [run w p]: the events of [p] in world [w], and its result; [None] when
    the process exited in [log.Fatal]. *)
Fixpoint run {R} (w : World) (p : prog R) : list event * option R :=
  match p with
  | Ret r => ([], Some r)
  | ListenAndServe k =>
      let e := listenResult w (listenCalls w) in
      emit (EListenAndServe e) (run (tick w) (k e))
  | Sleep d k => emit (ESleep d) (run w k)
  | Fatal msg err => ([EFatal msg err], None)
  | Println msg k => emit (EPrintln msg) (run w k)
  | Errorln msg err k => emit (EErrorln msg err) (run w k)
  | AwaitDone k => emit EAwaitDone (run w k)
  | Shutdown t k =>
      let e := shutdownResult w t in emit (EShutdown t e) (run w (k e))
  | Cancel k => emit ECancel (run w k)
  | WgDone k => emit EWgDone (run w k)
  | SetCheckOrigin f k => emit ESetCheckOrigin (run (withCheckOrigin f w) k)
  | Upgrade r k =>
      let res := upgradeResult w r in emit (EUpgrade r res) (run w (k res))
  | NewWebSocket c k =>
      emit (ENewWebSocket c) (run w (k {| wsConn := c |}))
  | NewClient ws ip ua k => emit (ENewClient ws ip ua) (run w k)
  end.

(** An error of [ListenAndServe] that the loop retries. *)
Definition transient (e : error) : bool :=
  bool_decide (e <> nil) && bool_decide (e <> ErrServerClosed).

(** Lines 169-180: the body of the listen goroutine,
    [for i := 1; i < 10; i++ { ... }].  The fuel bounds the unfolding of the
    loop; [Start_listen] gives it more than the loop can use. *)
Fixpoint listenLoop (fuel : nat) (i : Z) : prog unit :=
  match fuel with
  | 0 => Ret tt
  | S fuel' =>
      if (i <? 10)%Z then
        err ← ListenAndServe Ret;
        if transient err then
          (if decide (i = 9%Z) then Fatal "listen: %s\n" err else Ret tt);;
          Sleep (100 * Millisecond)%Z (Ret tt);;
          (* continue *)
          listenLoop fuel' (i + 1)%Z
        else
          (* break *)
          Ret tt
      else Ret tt
  end.

Definition Start_listen : prog unit := listenLoop 10 1%Z.

(** Lines 186-198 with the two deferred calls: the shutdown sequence of
    [Start]. *)
Definition Start_shutdown : prog unit :=
  AwaitDone (Ret tt);;
  Println "Shutting down server..." (Ret tt);;
  err ← Shutdown (5 * Second)%Z Ret;
  (if decide (err <> nil) then Fatal "Server forced to shutdown:" err
   else Ret tt);;
  Println "Server exited" (Ret tt);;
  Cancel (Ret tt);;
  WgDone (Ret tt).

(** Lines 201-215. *)
Definition websocketHandler (c : Context) : prog unit :=
  SetCheckOrigin (fun r => true) (Ret tt);;
  res ← Upgrade (Req c) Ret;
  match res with
  | inr err =>
      Errorln "Error upgrading WebSocket connection:" err (Ret tt)
  | inl conn =>
      wsc ← NewWebSocket conn Ret;
      NewClient wsc (ClientIP c) (UserAgent (Req c)) (Ret tt)
  end.

(** ** The listen loop *)

(** [j] failed attempts, each followed by the pause, from call number [a]. *)
Definition retries (w : World) (a j : nat) : list event :=
  flat_map
    (fun k => [EListenAndServe (listenResult w k); ESleep (100 * Millisecond)%Z])
    (seq a j).

Definition is_attempt (e : event) : bool :=
  match e with EListenAndServe _ => true | _ => false end.

Definition attempts (t : list event) : nat := length (List.filter is_attempt t).

Lemma run_listenLoop_S (n : nat) (i : Z) (w : World) :
  (i < 10)%Z ->
  run w (listenLoop (S n) i)
  = let e := listenResult w (listenCalls w) in
    if transient e then
      if decide (i = 9%Z) then ([EListenAndServe e; EFatal "listen: %s\n" e], None)
      else emit (EListenAndServe e)
             (emit (ESleep (100 * Millisecond)%Z)
                (run (tick w) (listenLoop n (i + 1)%Z)))
    else ([EListenAndServe e], Some tt).
Proof.
  intros Hi. cbn [listenLoop].
  replace (i <? 10)%Z with true by (symmetry; by apply Z.ltb_lt).
  unfold mbind, prog_mbind. cbn [prog_bind run]. cbn zeta.
  destruct (transient (listenResult w (listenCalls w))); [|done].
  destruct (decide (i = 9%Z)); done.
Qed.

Lemma run_listenLoop_done (n : nat) (i : Z) (w : World) :
  (10 <= i)%Z -> run w (listenLoop n i) = ([], Some tt).
Proof.
  intros Hi. destruct n; [done|]. cbn [listenLoop].
  by replace (i <? 10)%Z with false by (symmetry; by apply Z.ltb_ge).
Qed.

(** No more than [10 - i] attempts are made from the loop variable [i] on,
    whatever the fuel. *)
Lemma listenLoop_attempts (n : nat) : forall (i : Z) (w : World),
  (1 <= i)%Z -> attempts (run w (listenLoop n i)).1 <= Z.to_nat (10 - i).
Proof.
  unfold attempts. induction n as [|n IH]; intros i w Hi; [simpl; lia|].
  destruct (decide (i < 10)%Z) as [Hlt|Hge].
  - rewrite run_listenLoop_S by done. cbn zeta.
    destruct (transient _); [|simpl; lia].
    destruct (decide (i = 9%Z)); [simpl; lia|].
    specialize (IH (i + 1)%Z (tick w) ltac:(lia)). simpl. lia.
  - rewrite run_listenLoop_done by lia. simpl. lia.
Qed.

(** The first attempt that does not fail ends the loop. *)
Lemma listenLoop_exits (j : nat) : forall (n : nat) (i : Z) (w : World),
  (i + Z.of_nat j < 10)%Z -> j < n ->
  (forall k, k < j -> transient (listenResult w (listenCalls w + k)) = true) ->
  transient (listenResult w (listenCalls w + j)) = false ->
  run w (listenLoop n i)
  = (retries w (listenCalls w) j
       ++ [EListenAndServe (listenResult w (listenCalls w + j))], Some tt).
Proof.
  induction j as [|j IH]; intros n i w Hi Hj Hfail Hok.
  - destruct n as [|n]; [lia|]. rewrite run_listenLoop_S by lia. cbn zeta.
    rewrite Nat.add_0_r in *. by rewrite Hok.
  - destruct n as [|n]; [lia|]. rewrite run_listenLoop_S by lia. cbn zeta.
    pose proof (Hfail 0 ltac:(lia)) as H0. rewrite Nat.add_0_r in H0.
    rewrite H0. rewrite decide_False by lia.
    rewrite (IH n (i + 1)%Z (tick w)); simpl.
    + unfold emit, retries. simpl. do 4 f_equal.
      by rewrite Nat.add_succ_r.
    + lia.
    + lia.
    + intros k Hk. replace (S (listenCalls w + k)) with (listenCalls w + S k)
        by lia. apply Hfail. lia.
    + by replace (S (listenCalls w + j)) with (listenCalls w + S j) by lia.
Qed.

(** When every attempt fails, the failure with the loop variable at 9 is
    fatal. *)
Lemma listenLoop_fatal (j : nat) : forall (n : nat) (i : Z) (w : World),
  (i + Z.of_nat j = 9)%Z -> j < n ->
  (forall k, k <= j -> transient (listenResult w (listenCalls w + k)) = true) ->
  run w (listenLoop n i)
  = (retries w (listenCalls w) j
       ++ [EListenAndServe (listenResult w (listenCalls w + j));
           EFatal "listen: %s\n" (listenResult w (listenCalls w + j))], None).
Proof.
  induction j as [|j IH]; intros n i w Hi Hj Hfail.
  - destruct n as [|n]; [lia|]. rewrite run_listenLoop_S by lia. cbn zeta.
    pose proof (Hfail 0 ltac:(lia)) as H0. rewrite Nat.add_0_r in *.
    rewrite H0. by rewrite decide_True by lia.
  - destruct n as [|n]; [lia|]. rewrite run_listenLoop_S by lia. cbn zeta.
    pose proof (Hfail 0 ltac:(lia)) as H0. rewrite Nat.add_0_r in H0.
    rewrite H0. rewrite decide_False by lia.
    rewrite (IH n (i + 1)%Z (tick w)); simpl.
    + unfold emit, retries. simpl. do 4 f_equal.
      by rewrite Nat.add_succ_r.
    + lia.
    + lia.
    + intros k Hk. replace (S (listenCalls w + k)) with (listenCalls w + S k)
        by lia. apply Hfail. lia.
Qed.

Lemma transient_false (e : error) :
  transient e = false <-> e = nil \/ e = ErrServerClosed.
Proof.
  destruct e; unfold transient; simpl; split; intros H; try done;
    [auto|auto|..]; by destruct H.
Qed.

(** C7. The listen loop calls [ListenAndServe] at most 9 times.  After a
    failed attempt that is not the ninth it sleeps 100ms and tries again; an
    attempt that returns no error or [ErrServerClosed] ends the loop with no
    further call; when all nine attempts fail, the ninth failure is fatal and
    the process exits. *)
Theorem listen_loop_bounded_retry (w : World) :
  attempts (run w Start_listen).1 <= 9
  /\ (100 * Millisecond = 100000000)%Z
  /\ (forall e, transient e = false <-> e = nil \/ e = ErrServerClosed)
  /\ (forall j, j < 9 ->
        (forall k, k < j ->
           transient (listenResult w (listenCalls w + k)) = true) ->
        transient (listenResult w (listenCalls w + j)) = false ->
        run w Start_listen
        = (retries w (listenCalls w) j
             ++ [EListenAndServe (listenResult w (listenCalls w + j))],
           Some tt))
  /\ ((forall k, k < 9 ->
         transient (listenResult w (listenCalls w + k)) = true) ->
      run w Start_listen
      = (retries w (listenCalls w) 8
           ++ [EListenAndServe (listenResult w (listenCalls w + 8));
               EFatal "listen: %s\n" (listenResult w (listenCalls w + 8))],
         None)).
Proof.
  unfold Start_listen.
  split; [apply (listenLoop_attempts 10 1 w); lia|]. split; [done|].
  split; [apply transient_false|]. split.
  - intros j Hj Hfail Hok. apply listenLoop_exits; [lia|lia|done|done].
  - intros Hfail. apply listenLoop_fatal; [done|lia|].
    intros k Hk. apply Hfail. lia.
Qed.

(** ** Shutdown *)

(** C8. After the cancellation signal the manager asks for a graceful stop
    with a bound of 5 seconds.  When [Shutdown] returns no error the run
    logs ["Server exited"] and returns; when it returns an error, as it does
    with [context.DeadlineExceeded] once the bound is exceeded, the error is
    logged as fatal under ["Server forced to shutdown:"], the process exits
    and ["Server exited"] is not logged. *)
Theorem shutdown_bounded_drain (w : World) :
  (5 * Second = 5000000000)%Z
  /\ (shutdownResult w (5 * Second)%Z = nil ->
      run w Start_shutdown
      = ([EAwaitDone; EPrintln "Shutting down server...";
          EShutdown (5 * Second)%Z nil; EPrintln "Server exited";
          ECancel; EWgDone], Some tt))
  /\ (forall err, err <> nil -> shutdownResult w (5 * Second)%Z = err ->
      run w Start_shutdown
      = ([EAwaitDone; EPrintln "Shutting down server...";
          EShutdown (5 * Second)%Z err;
          EFatal "Server forced to shutdown:" err], None))
  /\ (shutdownResult w (5 * Second)%Z = DeadlineExceeded ->
      (run w Start_shutdown).2 = None
      /\ (EPrintln "Server exited" ∉ (run w Start_shutdown).1)
      /\ (EFatal "Server forced to shutdown:" DeadlineExceeded
           ∈ (run w Start_shutdown).1)).
Proof.
  assert (forall err, shutdownResult w (5 * Second)%Z = err ->
            run w Start_shutdown
            = if decide (err <> nil) then
                ([EAwaitDone; EPrintln "Shutting down server...";
                  EShutdown (5 * Second)%Z err;
                  EFatal "Server forced to shutdown:" err], None)
              else
                ([EAwaitDone; EPrintln "Shutting down server...";
                  EShutdown (5 * Second)%Z err; EPrintln "Server exited";
                  ECancel; EWgDone], Some tt)) as Hrun.
  { intros err Herr. unfold Start_shutdown, mbind, prog_mbind.
    cbn [prog_bind run]. cbn zeta. rewrite Herr.
    destruct (decide (err <> nil)); done. }
  split; [done|]. split; [|split].
  - intros Hnil. rewrite (Hrun nil Hnil). by rewrite decide_False by (by intros ?).
  - intros err Hne Herr. rewrite (Hrun err Herr). by rewrite decide_True.
  - intros Hdl. rewrite (Hrun _ Hdl). rewrite decide_True by done. simpl.
    split; [done|]. split.
    + rewrite !not_elem_of_cons. repeat split; try done. apply not_elem_of_nil.
    + rewrite !elem_of_cons. auto.
Qed.

(** ** The WebSocket upgrade handler *)

Definition is_NewClient (e : event) : bool :=
  match e with ENewClient _ _ _ => true | _ => false end.

(** C9. The handler installs an origin check that accepts every request, so
    the upgrade is decided by the handshake alone, whatever check was
    installed before.  On success the session constructor is called exactly
    once, with the upgraded connection (wrapped), the client address and the
    user agent of the request.  On failure the error is logged and the
    handler returns without calling the session constructor. *)
Theorem websocketHandler_upgrade (w : World) (c : Context) :
  (exists f k, websocketHandler c = SetCheckOrigin f k /\ forall r, f r = true)
  /\ (forall conn, handshake w (Req c) = inl conn ->
        run w (websocketHandler c)
        = ([ESetCheckOrigin; EUpgrade (Req c) (inl conn); ENewWebSocket conn;
            ENewClient {| wsConn := conn |} (ClientIP c) (UserAgent (Req c))],
           Some tt)
        /\ length (List.filter is_NewClient (run w (websocketHandler c)).1) = 1)
  /\ (forall err, handshake w (Req c) = inr err ->
        run w (websocketHandler c)
        = ([ESetCheckOrigin; EUpgrade (Req c) (inr err);
            EErrorln "Error upgrading WebSocket connection:" err], Some tt)
        /\ length (List.filter is_NewClient (run w (websocketHandler c)).1) = 0).
Proof.
  split; [|split].
  - by eexists _, _.
  - intros conn Hs.
    assert (run w (websocketHandler c)
            = ([ESetCheckOrigin; EUpgrade (Req c) (inl conn); ENewWebSocket conn;
                ENewClient {| wsConn := conn |} (ClientIP c) (UserAgent (Req c))],
               Some tt)) as ->; [|done].
    unfold websocketHandler, mbind, prog_mbind. cbn [prog_bind run].
    unfold upgradeResult. cbn [checkOrigin withCheckOrigin handshake].
    rewrite Hs. done.
  - intros err Hs.
    assert (run w (websocketHandler c)
            = ([ESetCheckOrigin; EUpgrade (Req c) (inr err);
                EErrorln "Error upgrading WebSocket connection:" err], Some tt))
      as ->; [|done].
    unfold websocketHandler, mbind, prog_mbind. cbn [prog_bind run].
    unfold upgradeResult. cbn [checkOrigin withCheckOrigin handshake].
    rewrite Hs. done.
Qed.

(** ** The end-to-end cases of the specification (section 8) *)

(** [GET /dashboard/settings/extra] with [dashboard/settings] registered. *)
Lemma noRoute_baseHref_resolve_witness :
  2 <= length (segments (lit "/dashboard/settings/extra"))
  /\ noRoute_baseHref unit registry_usual (lit "/dashboard/settings/extra")
     = lit "/dashboard/settings/".
Proof.
  split; [vm_compute; lia|].
  pose proof (noRoute_baseHref_resolve unit registry_usual
                (lit "/dashboard/settings/extra")) as (_ & _ & H).
  destruct (H (lit "dashboard/settings")) as [Hknown _].
  - vm_compute. lia.
  - by vm_compute.
  - rewrite Hknown; [by vm_compute|by eexists].
Defined.

(** An empty piece between two slashes is a segment: the candidate of
    [/dashboard//settings] is [dashboard/], which is not registered. *)
Example empty_segment_is_a_segment :
  segments (lit "/dashboard//settings/")
    = [lit "dashboard"; []; lit "settings"]
  /\ Go.Join (take 2 (segments (lit "/dashboard//settings/"))) (lit "/")
     = lit "dashboard/"
  /\ noRoute_baseHref unit registry_usual (lit "/dashboard//settings/")
     = lit "/".
Proof. repeat split; by vm_compute. Qed.

(** [GET /unknown/thing] with [unknown/thing] not registered: the shell with
    the root base href. *)
Example unknown_page_gets_root_shell :
  noRouteHandler unit registry_usual cfg_usual assets_usual
    (ctx_of (lit "/unknown/thing"))
  = Ok (Data 200 (lit "text/html")
          (noRoute_rewrite cfg_usual (lit "/") shell_usual)).
Proof. by vm_compute. Qed.

Example registered_page_gets_its_base_href :
  exists a b,
    noRouteHandler unit registry_usual cfg_usual assets_usual
      (ctx_of (lit "/dashboard/settings/extra"))
    = Ok (Data 200 (lit "text/html")
            (a ++ lit "<base href=" ++ [dquote] ++ lit "/dashboard/settings/"
               ++ [dquote] ++ lit ">" ++ b)).
Proof.
  exists (lit "<html><head>").
  eexists. vm_compute. reflexivity.
Qed.

(** [GET /api/nope]. *)
Lemma noRoute_api_gate_witness :
  noRouteHandler unit registry_usual cfg_usual assets_usual
    (ctx_of (lit "/api/nope"))
  = Ok (JSON 404 [(lit "message", lit "API endpoint not found")]).
Proof.
  exact (proj1 (proj1 (noRoute_api_gate unit registry_usual cfg_usual
                         assets_usual (ctx_of (lit "/api/nope"))) eq_refl)).
Defined.

(** The four substitutions on the usual shell document. *)
Lemma substitute_first_occurrence_witness :
  ~ occurs (marker PWebRenderer) (lit "<html></html>")
  /\ substitute cfg_usual (lit "/") PWebRenderer (lit "<html></html>")
     = lit "<html></html>".
Proof.
  assert (~ occurs (marker PWebRenderer) (lit "<html></html>")) as Hno.
  { intros [i Hi%elem_of_occurrences]. vm_compute in Hi.
    by apply not_elem_of_nil in Hi. }
  split; [done|].
  exact (proj1 (proj2 (substitute_first_occurrence cfg_usual (lit "/")
                         PWebRenderer (lit "<html></html>"))) Hno).
Defined.

(** A port that stays taken, and one that is free at the fourth attempt. *)
Definition world_port_taken : World :=
  {| listenResult := fun _ => ErrOther "listen tcp :8550: bind: address already in use";
     shutdownResult := fun _ => DeadlineExceeded;
     handshake := fun _ => inr (ErrOther "websocket: the client is not using the websocket protocol");
     listenCalls := 0;
     checkOrigin := fun _ => false |}.

Definition world_port_freed : World :=
  {| listenResult := fun n =>
       if decide (n < 3) then ErrOther "listen tcp :8550: bind: address already in use"
       else ErrServerClosed;
     shutdownResult := fun _ => nil;
     handshake := fun _ => inl {| connId := 1 |};
     listenCalls := 0;
     checkOrigin := fun _ => false |}.

Lemma listen_loop_bounded_retry_witness :
  attempts (run world_port_taken Start_listen).1 = 9
  /\ (run world_port_taken Start_listen).2 = None
  /\ attempts (run world_port_freed Start_listen).1 = 4
  /\ (run world_port_freed Start_listen).2 = Some tt.
Proof.
  pose proof (listen_loop_bounded_retry world_port_taken) as (_ & _ & _ & _ & Hfatal).
  pose proof (listen_loop_bounded_retry world_port_freed) as (_ & _ & _ & Hexit & _).
  rewrite Hfatal by done.
  rewrite (Hexit 3); [by vm_compute|lia| |done].
  intros k Hk. simpl. by rewrite decide_True by lia.
Defined.

Lemma shutdown_bounded_drain_witness :
  run world_port_freed Start_shutdown
  = ([EAwaitDone; EPrintln "Shutting down server...";
      EShutdown 5000000000%Z nil; EPrintln "Server exited"; ECancel; EWgDone],
     Some tt)
  /\ run world_port_taken Start_shutdown
     = ([EAwaitDone; EPrintln "Shutting down server...";
         EShutdown 5000000000%Z DeadlineExceeded;
         EFatal "Server forced to shutdown:" DeadlineExceeded], None).
Proof.
  split.
  - exact (proj1 (proj2 (shutdown_bounded_drain world_port_freed)) eq_refl).
  - refine (proj1 (proj2 (proj2 (shutdown_bounded_drain world_port_taken)))
              DeadlineExceeded _ eq_refl). done.
Defined.

(** An upgrade that succeeds although the check installed before refuses
    every origin, and one whose handshake fails. *)
Lemma websocketHandler_upgrade_witness :
  length (List.filter is_NewClient
            (run world_port_freed (websocketHandler (ctx_of (lit "/ws")))).1) = 1
  /\ length (List.filter is_NewClient
               (run world_port_taken (websocketHandler (ctx_of (lit "/ws")))).1) = 0.
Proof.
  split.
  - exact (proj2 (proj1 (proj2 (websocketHandler_upgrade world_port_freed
                                   (ctx_of (lit "/ws")))) _ eq_refl)).
  - exact (proj2 (proj2 (proj2 (websocketHandler_upgrade world_port_taken
                                   (ctx_of (lit "/ws")))) _ eq_refl)).
Defined.

(** * Further properties of the code

    ** Trimming and splitting at one byte *)

Section TrimFacts.
Implicit Types s t pre post cutset : bytes.

Lemma trimLeft_all pre s cutset :
  Forall (fun x => x ∈ cutset) pre ->
  Go.trimLeft (pre ++ s) cutset = Go.trimLeft s cutset.
Proof.
  induction 1 as [|x pre Hx _ IH]; [done|]. simpl.
  by rewrite bool_decide_eq_true_2.
Qed.

Lemma trimLeft_stop s cutset :
  (forall x, head s = Some x -> x ∉ cutset) -> Go.trimLeft s cutset = s.
Proof.
  destruct s as [|x s]; [done|]. intros H. simpl.
  rewrite bool_decide_eq_false_2; [done|]. by apply H.
Qed.

Lemma trimLeft_decompose s cutset :
  exists pre, s = pre ++ Go.trimLeft s cutset
              /\ Forall (fun x => x ∈ cutset) pre.
Proof.
  induction s as [|y s (pre & IH & Hall)]; simpl; [by exists []|].
  case_bool_decide as Hy.
  - exists (y :: pre). split; [simpl; by f_equal|by constructor].
  - by exists [].
Qed.

(** [Trim] returns the middle of a text between two runs of cutset bytes,
    when the middle neither starts nor ends with one. *)
Lemma Trim_middle pre t post cutset :
  Forall (fun x => x ∈ cutset) pre -> Forall (fun x => x ∈ cutset) post ->
  (forall x, head t = Some x -> x ∉ cutset) ->
  (forall y, last t = Some y -> y ∉ cutset) ->
  Go.Trim (pre ++ t ++ post) cutset = t.
Proof.
  intros Hpre Hpost Hhead Hlast. unfold Go.Trim, Go.trimRight.
  rewrite !reverse_app.
  rewrite <- app_assoc. rewrite trimLeft_all by by apply Forall_reverse.
  destruct t as [|x t'] eqn:Et.
  - simpl. rewrite <- (app_nil_r (reverse pre)).
    rewrite trimLeft_all by by apply Forall_reverse. done.
  - rewrite <- Et in *.
    assert (Go.trimLeft (reverse t ++ reverse pre) cutset
            = reverse t ++ reverse pre) as ->.
    { apply trimLeft_stop. intros y Hy. apply Hlast.
      destruct (reverse t) as [|z l] eqn:Er.
      - apply (f_equal length) in Er. rewrite length_reverse, Et in Er. done.
      - simpl in Hy. by rewrite <- head_reverse, Er. }
    rewrite reverse_app, !reverse_involutive.
    rewrite trimLeft_all by done. by apply trimLeft_stop.
Qed.

Lemma Trim_decompose s cutset :
  exists pre post,
    s = pre ++ Go.Trim s cutset ++ post
    /\ Forall (fun x => x ∈ cutset) pre /\ Forall (fun x => x ∈ cutset) post.
Proof.
  destruct (trimLeft_decompose (reverse s) cutset) as (p & Hp & Hpall).
  destruct (trimLeft_decompose (Go.trimRight s cutset) cutset)
    as (pre & Hpre & Hpreall).
  exists pre, (reverse p). split; [|split; [done|by apply Forall_reverse]].
  unfold Go.Trim. rewrite app_assoc, <- Hpre. unfold Go.trimRight.
  rewrite <- reverse_app, <- Hp. by rewrite reverse_involutive.
Qed.

(** Cutset bytes around a text do not change what [Trim] returns. *)
Lemma Trim_pad pre s post cutset :
  Forall (fun x => x ∈ cutset) pre -> Forall (fun x => x ∈ cutset) post ->
  Go.Trim (pre ++ s ++ post) cutset = Go.Trim s cutset.
Proof.
  intros Hpre Hpost.
  destruct (Trim_decompose s cutset) as (p1 & p2 & Hs & H1 & H2).
  rewrite Hs at 1.
  replace (pre ++ (p1 ++ Go.Trim s cutset ++ p2) ++ post)
    with ((pre ++ p1) ++ Go.Trim s cutset ++ (p2 ++ post))
    by (by rewrite <- !app_assoc).
  apply Trim_middle.
  - by apply Forall_app.
  - by apply Forall_app.
  - intros x Hx. destruct (Go.Trim s cutset) eqn:E; [done|].
    injection Hx as ->. by eapply Trim_head.
  - intros y Hy. by eapply Trim_last.
Qed.

End TrimFacts.

Section SplitByte.
Variable c : byte.
Implicit Types s a r x : bytes.

Lemma occurs_at_single s i : occurs_at [c] s i <-> s !! i = Some c.
Proof.
  revert s. induction i as [|i IH]; intros [|y s].
  - split; [intros [H _]; simpl in H; lia|done].
  - unfold occurs_at. simpl. rewrite take_0. split.
    + by intros [_ [= ->]].
    + intros [= ->]. split; [lia|done].
  - split; [intros [H _]; simpl in H; lia|done].
  - rewrite occurs_at_S. apply IH.
Qed.

Lemma Index_single_notin s : c ∉ s -> Go.Index s [c] = None.
Proof.
  intros Hc. destruct (Go.Index s [c]) as [i|] eqn:E; [|done].
  apply Index_Some in E as [Hocc _]. apply occurs_at_single in Hocc.
  exfalso. apply Hc. by eapply list_elem_of_lookup_2.
Qed.

Lemma Index_single_None s : Go.Index s [c] = None -> c ∉ s.
Proof.
  intros E Hc. apply list_elem_of_lookup_1 in Hc as [i Hi].
  apply occurs_at_single in Hi. by apply (Index_None _ _ i E).
Qed.

Lemma Index_single_app a r : c ∉ a -> Go.Index (a ++ c :: r) [c] = Some (length a).
Proof.
  intros Hc. apply Index_first.
  - apply (occurs_at_app a [c] r).
  - intros j Hj Hocc. apply occurs_at_single in Hocc.
    rewrite lookup_app_l in Hocc by done.
    apply Hc. by eapply list_elem_of_lookup_2.
Qed.

Lemma Split_single_notin s : c ∉ s -> Go.Split s [c] = [s].
Proof.
  intros Hc. rewrite Split_unfold by done. by rewrite Index_single_notin.
Qed.

Lemma Split_single_app a r :
  c ∉ a -> Go.Split (a ++ c :: r) [c] = a :: Go.Split r [c].
Proof.
  intros Hc. rewrite Split_unfold by done. rewrite Index_single_app by done.
  rewrite take_app_length. f_equal. f_equal.
  change (a ++ c :: r) with (a ++ [c] ++ r).
  by rewrite drop_app_add, drop_app_length.
Qed.

(** What [Split] does to a text, by its first separator. *)
Lemma Split_single_cases s :
  ((c ∉ s) /\ Go.Split s [c] = [s])
  \/ exists a r, s = a ++ c :: r /\ (c ∉ a)
                 /\ Go.Split s [c] = a :: Go.Split r [c].
Proof.
  destruct (Go.Index s [c]) as [i|] eqn:E.
  - right. pose proof (Index_Some _ _ _ E) as [Hocc Hfirst].
    pose proof (occurs_at_split _ _ _ Hocc) as Hs.
    exists (take i s), (drop (i + 1) s).
    assert (c ∉ take i s) as Hc.
    { intros Hin. apply list_elem_of_lookup_1 in Hin as [j Hj].
      pose proof (lookup_lt_Some _ _ _ Hj) as Hlt.
      rewrite length_take in Hlt. rewrite lookup_take_lt in Hj by lia.
      apply (Hfirst j); [lia|]. by apply occurs_at_single. }
    split; [done|]. split; [done|].
    rewrite Hs at 1. by apply Split_single_app.
  - left. split; [by apply Index_single_None|].
    rewrite Split_unfold by done. by rewrite E.
Qed.

Lemma Split_single_pieces n : forall s x,
  length s <= n -> x ∈ Go.Split s [c] -> c ∉ x.
Proof.
  induction n as [|n IH]; intros s x Hn Hx.
  - destruct s; [|simpl in Hn; lia].
    rewrite Split_single_notin in Hx by apply not_elem_of_nil.
    apply list_elem_of_singleton in Hx as ->. apply not_elem_of_nil.
  - destruct (Split_single_cases s) as [[Hc Hs]|(a & r & Hs & Hc & Hsplit)].
    + rewrite Hs in Hx. by apply list_elem_of_singleton in Hx as ->.
    + rewrite Hsplit in Hx. apply elem_of_cons in Hx as [->|Hx]; [done|].
      apply (IH r x); [|done]. rewrite Hs, length_app in Hn. simpl in Hn. lia.
Qed.

Lemma Join_cons (x : bytes) (l : list bytes) (sep : bytes) :
  l <> [] -> Go.Join (x :: l) sep = x ++ sep ++ Go.Join l sep.
Proof. by destruct l. Qed.

(** [Join] undoes [Split]. *)
Lemma Join_Split_single n : forall s,
  length s <= n -> Go.Join (Go.Split s [c]) [c] = s.
Proof.
  induction n as [|n IH]; intros s Hn.
  - destruct s; [|simpl in Hn; lia].
    by rewrite Split_single_notin by apply not_elem_of_nil.
  - destruct (Split_single_cases s) as [[Hc Hs]|(a & r & Hs & Hc & Hsplit)].
    + by rewrite Hs.
    + rewrite Hsplit.
      destruct (Split_cons r [c]) as (y & l & Hyl); [done|].
      rewrite Join_cons by (by rewrite Hyl). rewrite IH; [by rewrite Hs|].
      rewrite Hs, length_app in Hn. simpl in Hn. lia.
Qed.

End SplitByte.

(** ** The base href, by the shape of the path *)

Definition slashes (s : bytes) : Prop := Forall (fun x => x ∈ lit "/") s.

Section BaseHrefFacts.

(** The handler's answer for a path whose trimmed form starts with the two
    slash-free segments [a] and [b]. *)
Lemma noRoute_baseHref_of_trim
    (Page : Type) (GetPageByName : bytes -> option Page)
    (path a b tail : bytes) :
  Go.Trim path (lit "/") = a ++ lit "/" ++ b ++ tail ->
  tail = [] \/ head tail = Some x2f ->
  x2f ∉ a -> x2f ∉ b ->
  noRoute_baseHref Page GetPageByName path
  = match GetPageByName (a ++ lit "/" ++ b) with
    | Some _ => lit "/" ++ (a ++ lit "/" ++ b) ++ lit "/"
    | None => lit "/"
    end.
Proof.
  intros Htrim Htail Ha Hb. unfold noRoute_baseHref. rewrite Htrim.
  assert (Go.Split (a ++ lit "/" ++ b ++ tail) (lit "/")
          = a :: b :: match tail with
                      | [] => []
                      | _ :: t' => Go.Split t' (lit "/")
                      end) as Hsplit.
  { change (lit "/") with [x2f].
    change (a ++ [x2f] ++ b ++ tail) with (a ++ x2f :: (b ++ tail)).
    rewrite Split_single_app by done. f_equal.
    destruct Htail as [->|Hhead].
    - rewrite app_nil_r. by apply Split_single_notin.
    - destruct tail as [|x t']; [done|]. injection Hhead as ->.
      by apply Split_single_app. }
  rewrite Hsplit. clear Hsplit.
  set (more := match tail with [] => [] | _ :: t' => Go.Split t' (lit "/") end).
  change (take 2 (a :: b :: more)) with [a; b].
  destruct (decide (a ++ lit "/" ++ b ++ tail <> [])) as [_|Hn];
    [|exfalso; apply Hn; by destruct a].
  match goal with
  | |- context [decide (1 < ?n)] =>
      destruct (decide (1 < n)) as [_|Hn]; [|exfalso; apply Hn; simpl; lia]
  end.
  cbn [Go.Join].
  destruct (GetPageByName (a ++ lit "/" ++ b)).
  - destruct (decide (a ++ lit "/" ++ b <> [])) as [_|Hn]; [done|].
    exfalso. apply Hn. by destruct a.
  - by destruct (decide (([] : bytes) <> [])).
Qed.

(** Every path either gets the root base href from every registry, or has a
    candidate [a/b], made of its first two segments, that alone decides. *)
Lemma noRoute_baseHref_candidate (path : bytes) :
  (forall (Page : Type) (G : bytes -> option Page),
     noRoute_baseHref Page G path = lit "/")
  \/ exists a b tail,
       a <> [] /\ (x2f ∉ a) /\ (x2f ∉ b)
       /\ Go.Trim path (lit "/") = a ++ lit "/" ++ b ++ tail
       /\ (tail = [] \/ head tail = Some x2f)
       /\ forall (Page : Type) (G : bytes -> option Page),
            noRoute_baseHref Page G path
            = match G (a ++ lit "/" ++ b) with
              | Some _ => lit "/" ++ (a ++ lit "/" ++ b) ++ lit "/"
              | None => lit "/"
              end.
Proof.
  pose proof (Trim_slash_ends path) as [Hhead _].
  destruct (Split_single_cases x2f (Go.Trim path (lit "/")))
    as [[Hc Hs]|(a & r & Hs & Hc & _)].
  - left. intros Page G. unfold noRoute_baseHref.
    change (lit "/") with [x2f] in *. rewrite Hs.
    destruct (decide (Go.Trim path [x2f] <> [])) as [Hne|He];
      [|by destruct (decide (Go.Trim path [x2f] <> []))].
    destruct (decide (1 < length [Go.Trim path [x2f]])) as [Hl|_];
      [simpl in Hl; lia|].
    by destruct (decide (([] : bytes) <> [])).
  - right.
    assert (a <> []) as Hane.
    { intros ->. rewrite Hs in Hhead. by apply Hhead. }
    destruct (Split_single_cases x2f r) as [[Hr _]|(b & r' & Hr & Hb & _)].
    + exists a, r, []. repeat split; try done; [by rewrite app_nil_r|by left|].
      intros Page G. apply (noRoute_baseHref_of_trim Page G path a r []);
        try done.
      * by rewrite app_nil_r.
      * by left.
    + exists a, b, (x2f :: r'). subst r.
      repeat split; try done; [by right|].
      intros Page G.
      apply (noRoute_baseHref_of_trim Page G path a b (x2f :: r'));
        try done. by right.
Qed.

Variable Page : Type.
Variable GetPageByName : bytes -> option Page.

(** X1. The base href is the root, or [/a/b/] for a registered name [a/b] whose
    two parts hold no slash and whose first part is not empty; the name is
    then the start of the trimmed path, up to its end or to a slash. *)
Theorem noRoute_baseHref_shape (path : bytes) :
  noRoute_baseHref Page GetPageByName path = lit "/"
  \/ exists a b tail,
       a <> [] /\ (x2f ∉ a) /\ (x2f ∉ b)
       /\ is_Some (GetPageByName (a ++ lit "/" ++ b))
       /\ Go.Trim path (lit "/") = a ++ lit "/" ++ b ++ tail
       /\ (tail = [] \/ head tail = Some x2f)
       /\ noRoute_baseHref Page GetPageByName path
          = lit "/" ++ a ++ lit "/" ++ b ++ lit "/".
Proof.
  destruct (noRoute_baseHref_candidate path)
    as [Hroot|(a & b & tail & Ha & Has & Hbs & Htrim & Htail & Hres)];
    [by left|].
  specialize (Hres Page GetPageByName).
  destruct (GetPageByName (a ++ lit "/" ++ b)) as [pg|] eqn:E; [|by left].
  right. exists a, b, tail. repeat split; try done.
  rewrite Hres. by rewrite <- !app_assoc.
Qed.

(** X3. Slashes before and after a path do not change its base href. *)
Theorem noRoute_baseHref_pad (pre path post : bytes) :
  slashes pre -> slashes post ->
  noRoute_baseHref Page GetPageByName (pre ++ path ++ post)
  = noRoute_baseHref Page GetPageByName path.
Proof.
  intros Hpre Hpost. unfold noRoute_baseHref. by rewrite Trim_pad.
Qed.

(** The base href of a path that starts with two segments that are not
    empty. *)
Lemma noRoute_baseHref_two (a b tail : bytes) :
  a <> [] -> b <> [] -> x2f ∉ a -> x2f ∉ b ->
  tail = [] \/ head tail = Some x2f ->
  noRoute_baseHref Page GetPageByName (lit "/" ++ a ++ lit "/" ++ b ++ tail)
  = match GetPageByName (a ++ lit "/" ++ b) with
    | Some _ => lit "/" ++ (a ++ lit "/" ++ b) ++ lit "/"
    | None => lit "/"
    end.
Proof.
  intros Ha Hb Has Hbs Htail.
  assert (forall x, head (a ++ lit "/" ++ b) = Some x -> x ∉ lit "/") as Hhead.
  { intros x Hx. destruct a as [|y a']; [done|]. injection Hx as ->.
    intros Hin. apply list_elem_of_singleton in Hin as ->.
    apply Has. by left. }
  assert (forall y, last (a ++ lit "/" ++ b) = Some y -> y ∉ lit "/") as Hlast.
  { intros y Hy Hin. apply list_elem_of_singleton in Hin as ->.
    rewrite (app_assoc a), last_app in Hy.
    destruct (last b) as [z|] eqn:Eb; [|by apply last_None in Eb].
    injection Hy as ->. apply Hbs. apply last_Some in Eb as [l' ->].
    apply elem_of_app. right. by left. }
  destruct Htail as [->|Hslash].
  - rewrite (noRoute_baseHref_of_trim _ _ _ a b []); try done; [|by left].
    rewrite !app_nil_r.
    rewrite <- (app_nil_r (lit "/" ++ a ++ lit "/" ++ b)).
    rewrite <- app_assoc. apply Trim_middle; try done.
    repeat constructor.
  - destruct tail as [|x rest]; [done|]. injection Hslash as ->.
    destruct (Trim_decompose rest (lit "/")) as (p1 & p2 & Hrest & Hp1 & Hp2).
    destruct (Go.Trim rest (lit "/")) as [|t0 T] eqn:ET.
    + rewrite (noRoute_baseHref_of_trim _ _ _ a b []); try done; [|by left].
      rewrite app_nil_r, Hrest.
      replace (lit "/" ++ a ++ lit "/" ++ b ++ x2f :: p1 ++ [] ++ p2)
        with (lit "/" ++ (a ++ lit "/" ++ b) ++ (lit "/" ++ p1 ++ p2))
        by (by rewrite <- !app_assoc).
      apply Trim_middle; try done.
      * repeat constructor.
      * apply Forall_app. split; [repeat constructor|by apply Forall_app].
    + rewrite (noRoute_baseHref_of_trim _ _ _ a b (lit "/" ++ p1 ++ t0 :: T));
        try done; [|by right].
      rewrite Hrest.
      replace (lit "/" ++ a ++ lit "/" ++ b ++ x2f :: p1 ++ (t0 :: T) ++ p2)
        with (lit "/" ++ (a ++ lit "/" ++ b ++ lit "/" ++ p1 ++ t0 :: T) ++ p2)
        by (by rewrite <- !app_assoc).
      apply Trim_middle; try done.
      * repeat constructor.
      * intros x Hx. apply Hhead. by destruct a.
      * intros y Hy. apply (Trim_last rest (lit "/")). rewrite ET.
        rewrite !app_assoc in Hy. by rewrite last_app_cons in Hy.
Qed.

(** X4. Every route below a two-segment path has the base href of that path. *)
Theorem noRoute_baseHref_below (a b rest : bytes) :
  a <> [] -> b <> [] -> x2f ∉ a -> x2f ∉ b ->
  noRoute_baseHref Page GetPageByName
    (lit "/" ++ a ++ lit "/" ++ b ++ lit "/" ++ rest)
  = noRoute_baseHref Page GetPageByName (lit "/" ++ a ++ lit "/" ++ b).
Proof.
  intros Ha Hb Has Hbs.
  rewrite (noRoute_baseHref_two a b (lit "/" ++ rest)); try done; [|by right].
  replace (lit "/" ++ a ++ lit "/" ++ b)
    with (lit "/" ++ a ++ lit "/" ++ b ++ []) by (by rewrite app_nil_r).
  rewrite (noRoute_baseHref_two a b []); try done. by left.
Qed.

(** X5. The base href, taken as a path, resolves to itself when no registered
    name ends with a slash. *)
Theorem noRoute_baseHref_fixpoint (path : bytes) :
  (forall name, is_Some (GetPageByName name) -> last name <> Some x2f) ->
  noRoute_baseHref Page GetPageByName
    (noRoute_baseHref Page GetPageByName path)
  = noRoute_baseHref Page GetPageByName path.
Proof.
  intros Hreg.
  destruct (noRoute_baseHref_candidate path)
    as [->|(a & b & tail & Ha & Has & Hbs & _ & _ & ->)]; [done|].
  destruct (GetPageByName (a ++ lit "/" ++ b)) as [pg|] eqn:E; [|done].
  assert (b <> []) as Hb.
  { intros ->. apply (Hreg (a ++ lit "/" ++ [])); [by rewrite E|].
    rewrite app_nil_r. apply last_snoc. }
  replace (lit "/" ++ (a ++ lit "/" ++ b) ++ lit "/")
    with (lit "/" ++ a ++ lit "/" ++ b ++ lit "/")
    by (by rewrite <- !app_assoc).
  rewrite (noRoute_baseHref_two a b (lit "/")); try done; [|by right].
  rewrite E. by rewrite <- !app_assoc.
Qed.

End BaseHrefFacts.

(** X2. The registry is looked up at two-segment names only: registries that
    agree on the names [a/b], with [a] not empty and no slash in [a] or
    [b], give every path the same base href. *)
Theorem noRoute_baseHref_lookup_confined
    (Page1 Page2 : Type)
    (G1 : bytes -> option Page1) (G2 : bytes -> option Page2) (path : bytes) :
  (forall a b, a <> [] -> x2f ∉ a -> x2f ∉ b ->
     (is_Some (G1 (a ++ lit "/" ++ b)) <-> is_Some (G2 (a ++ lit "/" ++ b)))) ->
  noRoute_baseHref Page1 G1 path = noRoute_baseHref Page2 G2 path.
Proof.
  intros Hagree.
  destruct (noRoute_baseHref_candidate path)
    as [Hroot|(a & b & tail & Ha & Has & Hbs & _ & _ & Hres)].
  - by rewrite !Hroot.
  - rewrite !Hres. specialize (Hagree a b Ha Has Hbs).
    destruct (G1 (a ++ lit "/" ++ b)) as [p1|] eqn:E1;
      destruct (G2 (a ++ lit "/" ++ b)) as [p2|] eqn:E2; try done.
    + exfalso. by apply (is_Some_None (A := Page2)), Hagree.
    + exfalso. by apply (is_Some_None (A := Page1)), Hagree.
Qed.

Lemma slashes_check (s : bytes) :
  forallb (fun x => bool_decide (x = x2f)) s = true -> slashes s.
Proof.
  intros H. apply Forall_forall. intros x Hx.
  rewrite forallb_forall in H. apply list_elem_of_In in Hx.
  apply H in Hx. apply bool_decide_eq_true in Hx as ->. by left.
Qed.

Lemma noRoute_baseHref_pad_witness :
  noRoute_baseHref unit registry_usual
    (lit "//" ++ lit "dashboard/settings/extra" ++ lit "///")
  = lit "/dashboard/settings/".
Proof.
  rewrite (noRoute_baseHref_pad unit registry_usual (lit "//")
             (lit "dashboard/settings/extra") (lit "///"));
    [by vm_compute|by apply slashes_check|by apply slashes_check].
Defined.

Lemma noRoute_baseHref_below_witness :
  noRoute_baseHref unit registry_usual
    (lit "/" ++ lit "dashboard" ++ lit "/" ++ lit "settings" ++ lit "/"
       ++ lit "users/42//edit/")
  = lit "/dashboard/settings/".
Proof.
  rewrite (noRoute_baseHref_below unit registry_usual (lit "dashboard")
             (lit "settings") (lit "users/42//edit/")); try done.
  - by apply (bool_decide_unpack _).
  - by apply (bool_decide_unpack _).
Defined.

Lemma registry_usual_names (name : bytes) :
  is_Some (registry_usual name) -> last name <> Some x2f.
Proof.
  unfold registry_usual. destruct (decide (name = lit "dashboard/settings"))
    as [->|_]; [done|]. by intros [? ?].
Qed.

Lemma noRoute_baseHref_fixpoint_witness :
  noRoute_baseHref unit registry_usual
    (noRoute_baseHref unit registry_usual (lit "/dashboard/settings/extra"))
  = lit "/dashboard/settings/".
Proof.
  rewrite (noRoute_baseHref_fixpoint unit registry_usual
             (lit "/dashboard/settings/extra") registry_usual_names).
  by vm_compute.
Defined.

(** A registry that also holds a name of one segment, which no request can
    address. *)
Definition registry_with_orphan (name : bytes) : option nat :=
  if decide (name = lit "dashboard") then Some 0
  else if decide (name = lit "dashboard/settings") then Some 1
  else None.

Lemma noRoute_baseHref_lookup_confined_witness :
  noRoute_baseHref unit registry_usual (lit "/dashboard")
  = noRoute_baseHref nat registry_with_orphan (lit "/dashboard").
Proof.
  apply noRoute_baseHref_lookup_confined. intros a b _ _ _.
  unfold registry_usual, registry_with_orphan.
  destruct (decide (a ++ lit "/" ++ b = lit "dashboard")) as [Heq|_].
  - exfalso. assert (x2f ∈ a ++ lit "/" ++ b) as Hin
      by (apply elem_of_app; right; by left).
    rewrite Heq in Hin. revert Hin. by apply (bool_decide_unpack _).
  - destruct (decide (a ++ lit "/" ++ b = lit "dashboard/settings")); [|done].
    split; by eexists.
Defined.

(** ** What the rewrite step puts into the shell document *)

(** The placeholders that the source substitutes after [p]. *)
Definition later (p : placeholder) : list placeholder :=
  match p with
  | PBaseHref => [PRouteUrlStrategy; PWebRenderer; PColorEmoji]
  | PRouteUrlStrategy => [PWebRenderer; PColorEmoji]
  | PWebRenderer => [PColorEmoji]
  | PColorEmoji => []
  end.

Section RewriteFacts.
Variable cfg : Config.
Variable baseHref : bytes.

Lemma occurs_Index (m d : bytes) :
  occurs m d -> exists i, Go.Index d m = Some i.
Proof.
  intros [j Hj]. destruct (Go.Index d m) as [i|] eqn:E; [by exists i|].
  exfalso. by apply (Index_None _ _ j E).
Qed.

Lemma substitute_inserts (p : placeholder) (d : bytes) :
  emitted cfg p = true -> occurs (marker p) d ->
  occurs (value cfg baseHref p) (substitute cfg baseHref p d).
Proof.
  intros He Hocc. unfold substitute. rewrite He.
  destruct (occurs_Index _ _ Hocc) as [i Hi].
  destruct (Index_Some_split _ _ _ Hi) as (a & b & -> & <-).
  rewrite Replace_once_at; [|apply marker_nonempty|done].
  exists (length a). apply occurs_at_app.
Qed.

(** A substitution leaves a text that its marker cannot overlap. *)
Lemma substitute_keeps_text (q : placeholder) (t d : bytes) :
  (emitted cfg q = true -> overlaps (marker q) t = false) ->
  occurs t d -> occurs t (substitute cfg baseHref q d).
Proof.
  intros Hov Hocc. unfold substitute.
  destruct (emitted cfg q) eqn:Eq; [|done].
  rewrite Replace_once by apply marker_nonempty.
  destruct (Go.Index d (marker q)) as [i|] eqn:E; [|done].
  destruct (Index_Some_split _ _ _ E) as (a & b & -> & <-).
  rewrite splice_at. eapply occurs_swap; [|done]. by apply Hov.
Qed.

(** X6. A placeholder that the shell document holds, and whose substitution is
    emitted, leaves its value in the output, when the markers substituted
    later cannot overlap that value. *)
Theorem noRoute_rewrite_inserts (p : placeholder) (indexData : bytes) :
  emitted cfg p = true ->
  occurs (marker p) indexData ->
  (forall q, q ∈ later p -> emitted cfg q = true ->
     overlaps (marker q) (value cfg baseHref p) = false) ->
  occurs (value cfg baseHref p) (noRoute_rewrite cfg baseHref indexData).
Proof.
  intros He Hocc Hlater. rewrite noRoute_rewrite_steps.
  unfold substitute_all, placeholders. cbn [foldl].
  assert (forall q d, q ∈ later p ->
            occurs (value cfg baseHref p) d ->
            occurs (value cfg baseHref p) (substitute cfg baseHref q d))
    as Hkeep.
  { intros q d Hq. apply substitute_keeps_text. by apply Hlater. }
  destruct p; cbn [later] in Hkeep.
  - apply Hkeep; [repeat constructor|]. apply Hkeep; [repeat constructor|].
    apply Hkeep; [repeat constructor|]. by apply substitute_inserts.
  - apply Hkeep; [repeat constructor|]. apply Hkeep; [repeat constructor|].
    apply substitute_inserts; [done|]. by apply substitute_survives.
  - apply Hkeep; [repeat constructor|].
    apply substitute_inserts; [done|].
    apply substitute_survives; [done|]. by apply substitute_survives.
  - apply substitute_inserts; [done|].
    apply substitute_survives; [done|]. apply substitute_survives; [done|].
    by apply substitute_survives.
Qed.

(** X7. A document that holds none of the four markers is served as it is. *)
Theorem noRoute_rewrite_no_marker (indexData : bytes) :
  (forall p, ~ occurs (marker p) indexData) ->
  noRoute_rewrite cfg baseHref indexData = indexData.
Proof.
  intros Hno. rewrite noRoute_rewrite_steps.
  unfold substitute_all, placeholders. cbn [foldl].
  rewrite (substitute_absent cfg baseHref PBaseHref) by apply Hno.
  rewrite (substitute_absent cfg baseHref PRouteUrlStrategy) by apply Hno.
  rewrite (substitute_absent cfg baseHref PWebRenderer) by apply Hno.
  by rewrite (substitute_absent cfg baseHref PColorEmoji) by apply Hno.
Qed.

End RewriteFacts.

(** Replacing a text by itself changes nothing. *)
Lemma Replace_once_same (d m : bytes) : m <> [] -> Go.Replace d m m 1 = d.
Proof.
  intros Hm. rewrite Replace_once by done.
  destruct (Go.Index d m) as [i|] eqn:E; [|done].
  apply Index_Some in E as [Hocc _]. symmetry. by apply occurs_at_split.
Qed.

(** X8. With the root base href the base element of the shell document stays as
    it is: the rewrite is the three other substitutions. *)
Theorem noRoute_rewrite_root (cfg : Config) (indexData : bytes) :
  substitute cfg (lit "/") PBaseHref indexData = indexData
  /\ noRoute_rewrite cfg (lit "/") indexData
     = substitute_all cfg (lit "/")
         [PRouteUrlStrategy; PWebRenderer; PColorEmoji] indexData.
Proof.
  assert (substitute cfg (lit "/") PBaseHref indexData = indexData) as Hid.
  { unfold substitute. cbn [emitted].
    change (value cfg (lit "/") PBaseHref) with (marker PBaseHref).
    apply Replace_once_same, marker_nonempty. }
  split; [done|]. rewrite noRoute_rewrite_steps.
  unfold substitute_all, placeholders. cbn [foldl]. by rewrite Hid.
Qed.

Lemma noRoute_rewrite_inserts_witness :
  occurs (value cfg_usual (lit "/dashboard/settings/") PBaseHref)
    (noRoute_rewrite cfg_usual (lit "/dashboard/settings/") shell_usual).
Proof.
  apply noRoute_rewrite_inserts.
  - done.
  - exists 12. by apply (bool_decide_unpack _).
  - intros q Hq _. cbn [later] in Hq.
    repeat (apply elem_of_cons in Hq as [->|Hq]; [by vm_compute|]).
    by apply not_elem_of_nil in Hq.
Defined.

Lemma noRoute_rewrite_no_marker_witness :
  noRoute_rewrite cfg_usual (lit "/") (lit "<html><body>plain</body></html>")
  = lit "<html><body>plain</body></html>".
Proof.
  apply noRoute_rewrite_no_marker. intros p [i Hi%elem_of_occurrences].
  destruct p; vm_compute in Hi; by apply not_elem_of_nil in Hi.
Defined.

(** ** The rewrite step as the filling of a template *)

(** A shell document, as texts and the places of placeholders. *)
Inductive piece :=
| Text (t : bytes)
| Hole (p : placeholder).

#[global] Instance piece_eq_dec : EqDecision piece.
Proof. solve_decision. Defined.

(** The bytes of a template, with [f p] at the place of placeholder [p]. *)
Definition render (f : placeholder -> bytes) (ps : list piece) : bytes :=
  flat_map (fun x => match x with Text t => t | Hole p => f p end) ps.

(** What the handler puts at a placeholder: its value, or the marker itself
    for the renderer when no renderer is configured. *)
Definition filled (cfg : Config) (baseHref : bytes) (p : placeholder) : bytes :=
  if emitted cfg p then value cfg baseHref p else marker p.

Section Template.
Variable cfg : Config.
Variable baseHref : bytes.
Hypothesis Hinert : inert cfg baseHref = true.

Lemma render_app f l1 l2 : render f (l1 ++ l2) = render f l1 ++ render f l2.
Proof. apply flat_map_app. Qed.

Lemma render_split f l1 p l2 :
  render f (l1 ++ Hole p :: l2) = render f l1 ++ f p ++ render f l2.
Proof. by rewrite render_app. Qed.

Lemma render_ext f g l :
  (forall q, Hole q ∈ l -> f q = g q) -> render f l = render g l.
Proof.
  induction l as [|x l IH]; intros Hfg; [done|]. unfold render. simpl.
  fold (render f l) (render g l). rewrite IH.
  - destruct x as [t|q]; [done|]. rewrite (Hfg q); [done|by left].
  - intros q Hq. apply Hfg. by right.
Qed.

(** A marker that occurs at most once in the bytes stands at one place of
    the template at most. *)
Lemma hole_once ps p l1 l2 :
  at_most_once (marker p) (render marker ps) ->
  ps = l1 ++ Hole p :: l2 -> (Hole p ∉ l1) /\ (Hole p ∉ l2).
Proof.
  intros Honce ->.
  pose proof (marker_nonempty p) as Hm.
  assert (0 < length (marker p)) as Hlen
    by (destruct (marker p); [done|simpl; lia]).
  split; intros Hin; apply list_elem_of_split in Hin as (m1 & m2 & ->).
  - rewrite <- app_assoc in Honce. simpl in Honce.
    rewrite (render_split marker m1 p) in Honce.
    rewrite (render_split marker m2 p) in Honce.
    pose proof (Honce (length (render marker m1))
                  (length (render marker m1 ++ marker p ++ render marker m2))
                  (occurs_at_app _ _ _)) as Heq.
    rewrite !length_app in Heq.
    assert (length (render marker m1)
            = length (render marker m1)
              + (length (marker p) + length (render marker m2))); [|lia].
    apply Heq.
    replace (render marker m1 ++ marker p ++ render marker m2
               ++ marker p ++ render marker l2)
      with ((render marker m1 ++ marker p ++ render marker m2)
              ++ marker p ++ render marker l2)
      by (by rewrite <- !app_assoc).
    rewrite <- !length_app. apply occurs_at_app.
  - rewrite (render_split marker l1 p) in Honce.
    rewrite (render_split marker m1 p) in Honce.
    pose proof (Honce (length (render marker l1))
                  (length (render marker l1 ++ marker p ++ render marker m1))
                  (occurs_at_app _ _ _)) as Heq.
    rewrite !length_app in Heq.
    assert (length (render marker l1)
            = length (render marker l1)
              + (length (marker p) + length (render marker m1))); [|lia].
    apply Heq.
    replace (render marker l1 ++ marker p ++ render marker m1
               ++ marker p ++ render marker m2)
      with ((render marker l1 ++ marker p ++ render marker m1)
              ++ marker p ++ render marker m2)
      by (by rewrite <- !app_assoc).
    rewrite <- !length_app. apply occurs_at_app.
Qed.

Variable ps : list piece.
Hypothesis Honce : forall p, at_most_once (marker p) (render marker ps).
Hypothesis Hholes : forall p, occurs (marker p) (render marker ps) -> Hole p ∈ ps.

(** One substitution fills one place. *)
Lemma fill_step (before : list placeholder) (p : placeholder)
    (f : placeholder -> bytes) :
  p ∉ before -> f p = marker p ->
  substitute_all cfg baseHref before (render marker ps) = render f ps ->
  substitute cfg baseHref p (render f ps)
  = render (fun q => if decide (q = p) then filled cfg baseHref p else f q) ps.
Proof using All.
  intros Hnotin Hfp Hdoc.
  destruct (substitute_all_keeps cfg baseHref Hinert p before
              (render marker ps) Hnotin) as [Hocc Hamo].
  rewrite Hdoc in Hocc, Hamo. specialize (Hamo (Honce p)).
  set (g := fun q => if decide (q = p) then filled cfg baseHref p else f q).
  assert (forall l, Hole p ∉ l -> render g l = render f l) as Hext.
  { intros l Hl. apply render_ext. intros q Hq. unfold g.
    rewrite decide_False; [done|]. by intros ->. }
  destruct (decide (Hole p ∈ ps)) as [Hin|Hout].
  - apply list_elem_of_split in Hin as (l1 & l2 & Hps).
    destruct (hole_once ps p l1 l2 (Honce p) Hps) as [H1 H2].
    rewrite Hps in Hamo |- *. rewrite !render_split in *.
    rewrite Hfp in *. rewrite (Hext l1), (Hext l2) by done.
    assert (g p = filled cfg baseHref p) as ->
      by (unfold g; by rewrite decide_True).
    rewrite substitute_at; [unfold filled; by destruct (emitted cfg p)|].
    apply Index_first; [apply occurs_at_app|].
    intros j Hj Hoj.
    pose proof (Hamo _ _ Hoj (occurs_at_app _ _ _)). lia.
  - assert (~ occurs (marker p) (render f ps)) as Hno.
    { intros Ho. apply Hout, Hholes. by apply Hocc. }
    rewrite substitute_absent by done. symmetry. by apply Hext.
Qed.

(** X9. For a template whose bytes hold each marker at most once and only where
    a placeholder stands, and values that cannot overlap another marker, the
    rewrite step returns the template with every placeholder filled. *)
Theorem noRoute_rewrite_fills :
  noRoute_rewrite cfg baseHref (render marker ps)
  = render (filled cfg baseHref) ps.
Proof using All.
  rewrite noRoute_rewrite_steps. unfold substitute_all, placeholders.
  cbn [foldl].
  set (f1 := fun q => if decide (q = PBaseHref)
                      then filled cfg baseHref PBaseHref else marker q).
  set (f2 := fun q => if decide (q = PRouteUrlStrategy)
                      then filled cfg baseHref PRouteUrlStrategy else f1 q).
  set (f3 := fun q => if decide (q = PWebRenderer)
                      then filled cfg baseHref PWebRenderer else f2 q).
  assert (substitute cfg baseHref PBaseHref (render marker ps) = render f1 ps)
    as H1.
  { apply (fill_step []); [apply not_elem_of_nil|done|done]. }
  rewrite H1.
  assert (substitute cfg baseHref PRouteUrlStrategy (render f1 ps)
          = render f2 ps) as H2.
  { apply (fill_step [PBaseHref]); [|done|by rewrite <- H1].
    by apply (bool_decide_unpack _). }
  rewrite H2.
  assert (substitute cfg baseHref PWebRenderer (render f2 ps) = render f3 ps)
    as H3.
  { apply (fill_step [PBaseHref; PRouteUrlStrategy]);
      [by apply (bool_decide_unpack _)|done|].
    unfold substitute_all. cbn [foldl]. by rewrite H1, H2. }
  rewrite H3.
  rewrite (fill_step [PBaseHref; PRouteUrlStrategy; PWebRenderer]);
    [|by apply (bool_decide_unpack _)|done|].
  - apply render_ext. intros q _. by destruct q.
  - unfold substitute_all. cbn [foldl]. by rewrite H1, H2, H3.
Qed.

End Template.

(** The usual shell document as a template. *)
Definition template_usual : list piece :=
  [Text (lit "<html><head>"); Hole PBaseHref; Text (lit "<script>var s='");
   Hole PRouteUrlStrategy; Text (lit "';</script>"); Hole PWebRenderer;
   Hole PColorEmoji; Text (lit "</head><body></body></html>")].

Lemma noRoute_rewrite_fills_witness :
  render marker template_usual = shell_usual
  /\ noRoute_rewrite cfg_usual (lit "/a/b/") (render marker template_usual)
     = render (filled cfg_usual (lit "/a/b/")) template_usual.
Proof.
  split; [by vm_compute|].
  apply noRoute_rewrite_fills.
  - by vm_compute.
  - intros p. apply at_most_once_check. destruct p; vm_compute; lia.
  - intros p _. unfold template_usual. destruct p; repeat constructor.
Defined.

(** ** The time and the attempts the listen loop takes *)

Definition is_sleep (e : event) : bool :=
  match e with ESleep _ => true | _ => false end.

(** The time slept in a run. *)
Fixpoint total_sleep (t : list event) : Duration :=
  match t with
  | [] => 0%Z
  | ESleep d :: t' => (d + total_sleep t')%Z
  | _ :: t' => total_sleep t'
  end.

Lemma listenLoop_sleeps (n : nat) : forall (i : Z) (w : World),
  (1 <= i < 10)%Z -> Z.to_nat (10 - i) <= n ->
  let t := (run w (listenLoop n i)).1 in
  1 <= attempts t
  /\ length (List.filter is_sleep t) + 1 = attempts t
  /\ total_sleep t
     = (100 * Millisecond * Z.of_nat (length (List.filter is_sleep t)))%Z.
Proof.
  unfold attempts. induction n as [|n IH]; intros i w Hi Hn; [lia|].
  rewrite run_listenLoop_S by lia. cbn zeta.
  destruct (transient _); [|simpl; lia].
  destruct (decide (i = 9%Z)); [simpl; lia|].
  destruct (IH (i + 1)%Z (tick w)) as (H1 & H2 & H3); [lia|lia|].
  cbn [emit fst List.filter is_attempt is_sleep length total_sleep].
  rewrite H3. lia.
Qed.

(** Among the first [bound] results, all are failures to retry or there is
    a first one that is not. *)
Lemma first_not_transient (res : nat -> error) (bound : nat) :
  (forall k, k < bound -> transient (res k) = true)
  \/ exists j, j < bound /\ transient (res j) = false
               /\ forall k, k < j -> transient (res k) = true.
Proof.
  induction bound as [|bound [IH|(j & Hj & Hok & Hfail)]].
  - left. intros k Hk. lia.
  - destruct (transient (res bound)) eqn:E.
    + left. intros k Hk. destruct (decide (k = bound)) as [->|]; [done|].
      apply IH. lia.
    + right. exists bound. split; [lia|]. split; [done|].
      intros k Hk. by apply IH.
  - right. exists j. split; [lia|done].
Qed.

(** A trace in which every attempt but the last is followed by one pause of
    100ms and then by the next attempt, and the last attempt by nothing or
    by the fatal log alone. *)
Fixpoint paced (t : list event) : bool :=
  match t with
  | [EListenAndServe _] => true
  | [EListenAndServe _; EFatal _ _] => true
  | EListenAndServe _ :: ESleep d :: t' =>
      bool_decide (d = (100 * Millisecond)%Z) && paced t'
  | _ => false
  end.

Lemma paced_retries (w : World) (j : nat) : forall (a : nat) (t : list event),
  paced t = true -> paced (retries w a j ++ t) = true.
Proof.
  induction j as [|j IH]; intros a t Ht; [done|].
  unfold retries. cbn [seq flat_map app].
  fold (retries w (S a) j). cbn [paced].
  rewrite bool_decide_eq_true_2 by done. cbn [andb].
  specialize (IH (S a) t Ht).
  destruct (retries w (S a) j ++ t) as [|e l] eqn:E; [done|].
  by destruct e.
Qed.

(** X10. Whatever [ListenAndServe] returns, the run of the listen loop is
    [j < 9] failed attempts, each followed at once by a pause of 100ms and
    then by the next attempt, and one last attempt, followed by no pause: by
    nothing when it did not fail, by the fatal log when it is the ninth and
    failed.  So the loop makes between one and nine attempts and sleeps
    100ms times the attempts but one, 800ms at most in all; the process
    exits exactly when the first nine results are all errors other than
    [ErrServerClosed]. *)
Theorem listen_loop_budget (w : World) :
  let t := (run w Start_listen).1 in
  let res := fun k => listenResult w (listenCalls w + k) in
  (exists j,
     j < 9
     /\ (forall k, k < j -> transient (res k) = true)
     /\ (transient (res j) = true -> j = 8)
     /\ t = retries w (listenCalls w) j
            ++ EListenAndServe (res j)
               :: (if transient (res j)
                   then [EFatal "listen: %s\n" (res j)] else []))
  /\ paced t = true
  /\ 1 <= attempts t <= 9
  /\ length (List.filter is_sleep t) = attempts t - 1
  /\ total_sleep t = (100 * Millisecond * Z.of_nat (attempts t - 1))%Z
  /\ (total_sleep t <= 800 * Millisecond)%Z
  /\ ((run w Start_listen).2 = None
      <-> forall k, k < 9 ->
            transient (listenResult w (listenCalls w + k)) = true).
Proof.
  cbn zeta. unfold Start_listen.
  (* the run, by the first result that is not a failure to retry *)
  assert (exists j,
            j < 9
            /\ (forall k, k < j ->
                  transient (listenResult w (listenCalls w + k)) = true)
            /\ (transient (listenResult w (listenCalls w + j)) = true -> j = 8)
            /\ (run w (listenLoop 10 1)).1
               = retries w (listenCalls w) j
                   ++ EListenAndServe (listenResult w (listenCalls w + j))
                      :: (if transient (listenResult w (listenCalls w + j))
                          then [EFatal "listen: %s\n"
                                  (listenResult w (listenCalls w + j))]
                          else []))
    as Hshape.
  { destruct (first_not_transient
                (fun k => listenResult w (listenCalls w + k)) 9)
      as [Hall|(j & Hj & Hok & Hfail)].
    - exists 8. split; [lia|]. split; [intros k Hk; apply Hall; lia|].
      split; [done|].
      rewrite (listenLoop_fatal 8 10 1 w); [|lia|lia|].
      + cbn [fst]. by rewrite (Hall 8) by lia.
      + intros k Hk. apply Hall. lia.
    - exists j. split; [done|]. split; [done|].
      split; [by rewrite Hok|].
      rewrite (listenLoop_exits j 10 1 w); [|lia|lia|done|done].
      cbn [fst]. by rewrite Hok. }
  split; [exact Hshape|].
  split.
  { destruct Hshape as (j & _ & _ & _ & ->). apply paced_retries.
    by destruct (transient _). }
  clear Hshape.
  pose proof (listenLoop_attempts 10 1 w ltac:(lia)) as Hmax.
  change (Z.to_nat (10 - 1)) with 9 in Hmax.
  destruct (listenLoop_sleeps 10 1 w) as (Hmin & Hsl & Htot); [lia|lia|].
  cbn zeta in *.
  split; [lia|]. split; [lia|].
  split; [rewrite Htot; do 2 f_equal; lia|].
  split; [rewrite Htot; unfold Millisecond; lia|].
  split.
  - intros Hexit.
    destruct (first_not_transient
                (fun k => listenResult w (listenCalls w + k)) 9)
      as [Hall|(j & Hj & Hok & Hfail)]; [done|].
    rewrite (listenLoop_exits j 10 1 w) in Hexit; [done|lia|lia|done|done].
  - intros Hall.
    rewrite (listenLoop_fatal 8 10 1 w); [done|lia|lia|].
    intros k Hk. apply Hall. lia.
Qed.

(** ** Upgrade requests, one after the other *)

(** The world after a run: [run] without the events. *)
Fixpoint run_world {R} (w : World) (p : prog R) : World :=
  match p with
  | Ret _ => w
  | ListenAndServe k =>
      run_world (tick w) (k (listenResult w (listenCalls w)))
  | Sleep _ k => run_world w k
  | Fatal _ _ => w
  | Println _ k => run_world w k
  | Errorln _ _ k => run_world w k
  | AwaitDone k => run_world w k
  | Shutdown t k => run_world w (k (shutdownResult w t))
  | Cancel k => run_world w k
  | WgDone k => run_world w k
  | SetCheckOrigin f k => run_world (withCheckOrigin f w) k
  | Upgrade r k => run_world w (k (upgradeResult w r))
  | NewWebSocket c k => run_world w (k {| wsConn := c |})
  | NewClient _ _ _ k => run_world w k
  end.

(** A run of [p] followed by [k]: the events of [p], then those of [k] in the
    world that [p] left, unless [p] ended the process. *)
Lemma run_bind {A B} (p : prog A) (k : A -> prog B) : forall (w : World),
  run w (p ≫= k)
  = match (run w p).2 with
    | Some a =>
        ((run w p).1 ++ (run (run_world w p) (k a)).1,
         (run (run_world w p) (k a)).2)
    | None => ((run w p).1, None)
    end.
Proof.
  unfold mbind, prog_mbind.
  induction p; intros w; cbn [prog_bind run run_world]; cbn zeta;
    repeat match goal with
      | H : forall _ : World, _ = _ |- _ => rewrite H; clear H
      | H : forall _ (_ : World), _ = _ |- _ => rewrite H; clear H
      end;
    unfold emit; cbn [fst snd];
    try match goal with
      | |- context [(run ?w' ?q).2] => destruct (run w' q) as [? [?|]]
      end;
    done.
Qed.

(** The handler, once for each request of a list. *)
Definition websocketHandlers (cs : list Context) : prog unit :=
  foldr (fun c rest => websocketHandler c;; rest) (Ret tt) cs.

(** The session that a request gets, if its handshake succeeds. *)
Definition session_of (w : World) (c : Context) : option event :=
  match handshake w (Req c) with
  | inl conn =>
      Some (ENewClient {| wsConn := conn |} (ClientIP c) (UserAgent (Req c)))
  | inr _ => None
  end.

Lemma websocketHandler_run (w : World) (c : Context) :
  List.filter is_NewClient (run w (websocketHandler c)).1
    = option_list (session_of w c)
  /\ (run w (websocketHandler c)).2 = Some tt
  /\ run_world w (websocketHandler c) = withCheckOrigin (fun _ => true) w.
Proof.
  unfold websocketHandler, session_of, mbind, prog_mbind.
  cbn [prog_bind run run_world]. unfold upgradeResult.
  cbn [checkOrigin withCheckOrigin handshake].
  destruct (handshake w (Req c)); done.
Qed.

(** X11. Over any sequence of upgrade requests the session constructor is called
    once for each request whose handshake succeeds, in the order of the
    requests and with the address and the agent of that request, whatever
    origin check was installed at the start; afterwards the package's
    upgrader accepts every origin. *)
Theorem websocketHandlers_sessions (w : World) (cs : list Context) :
  List.filter is_NewClient (run w (websocketHandlers cs)).1
    = omap (session_of w) cs
  /\ (run w (websocketHandlers cs)).2 = Some tt
  /\ (cs <> [] ->
      forall r, checkOrigin (run_world w (websocketHandlers cs)) r = true).
Proof.
  assert (forall cs w,
            (forall r, checkOrigin w r = true) ->
            forall r, checkOrigin (run_world w (websocketHandlers cs)) r = true)
    as Hstay.
  { clear. induction cs as [|c cs IH]; intros w Hw r; [apply Hw|].
    cbn [websocketHandlers foldr]. fold (websocketHandlers cs).
    unfold websocketHandler, mbind, prog_mbind.
    cbn [prog_bind run_world]. unfold upgradeResult.
    cbn [checkOrigin withCheckOrigin handshake].
    destruct (handshake w (Req c)); cbn [prog_bind run_world]; by apply IH. }
  revert w. induction cs as [|c cs IH]; intros w; [done|].
  cbn [websocketHandlers foldr]. fold (websocketHandlers cs).
  destruct (websocketHandler_run w c) as (Hf & Hr & Hw).
  rewrite run_bind. rewrite Hr, Hw. cbn [fst snd].
  destruct (IH (withCheckOrigin (fun _ => true) w)) as (IHf & IHr & _).
  split; [|split; [done|]].
  - rewrite List.filter_app, Hf, IHf. cbn [omap].
    change (session_of (withCheckOrigin (fun _ => true) w))
      with (session_of w).
    unfold list_omap. by destruct (session_of w c).
  - intros _ r.
    assert (run_world w (websocketHandler c;; websocketHandlers cs)
            = run_world (withCheckOrigin (fun _ => true) w)
                (websocketHandlers cs)) as ->.
    { unfold websocketHandler, mbind, prog_mbind.
      cbn [prog_bind run_world]. unfold upgradeResult.
      cbn [checkOrigin withCheckOrigin handshake].
      by destruct (handshake w (Req c)). }
    by apply Hstay.
Qed.

Definition world_by_agent : World :=
  {| listenResult := fun _ => nil;
     shutdownResult := fun _ => nil;
     handshake := fun r =>
       if decide (UserAgent r = lit "probe") then
         inr (ErrOther "websocket: the client is not using the websocket protocol")
       else inl {| connId := length (RequestURI r) |};
     listenCalls := 0;
     checkOrigin := fun _ => false |}.

Definition ctx_agent (target agent ip : bytes) : Context :=
  {| Req := {| RequestURI := target;
               Url := {| Path := target; RawQuery := [] |};
               UserAgent := agent |};
     ClientIP := ip |}.

Lemma websocketHandlers_sessions_witness :
  List.filter is_NewClient
    (run world_by_agent
       (websocketHandlers
          [ctx_agent (lit "/ws") (lit "Mozilla/5.0") (lit "192.0.2.7");
           ctx_agent (lit "/ws") (lit "probe") (lit "192.0.2.8");
           ctx_agent (lit "/ws") (lit "flet/0.1") (lit "192.0.2.9")])).1
  = [ENewClient {| wsConn := {| connId := 3 |} |} (lit "192.0.2.7")
       (lit "Mozilla/5.0");
     ENewClient {| wsConn := {| connId := 3 |} |} (lit "192.0.2.9")
       (lit "flet/0.1")].
Proof.
  rewrite (proj1 (websocketHandlers_sessions world_by_agent _)).
  by vm_compute.
Defined.

(** ** The API gate and the decoded path *)

Lemma unescape_plain (c : byte) (s : bytes) :
  c <> x25 ->
  NetURL.unescape (c :: s) = s' ← NetURL.unescape s; Some (c :: s').
Proof. intros Hc. cbn [NetURL.unescape]. by rewrite decide_False. Qed.

Lemma unescape_api (s p : bytes) :
  NetURL.unescape (lit "/api/" ++ s) = Some p ->
  exists p', p = lit "/api/" ++ p'.
Proof.
  change (lit "/api/" ++ s) with (x2f :: x61 :: x70 :: x69 :: x2f :: s).
  rewrite !unescape_plain by done.
  destruct (NetURL.unescape s) as [s'|]; [|done].
  intros [= <-]. by exists s'.
Qed.

(** X12. Under the parsing of [net/http], a request that the handler answers with
    the API 404 has a decoded path under the API prefix. *)
Theorem api_not_found_path_under_prefix
    (Page : Type) (GetPageByName : bytes -> option Page) (cfg : Config)
    (assetsFS : AssetsFS) (target userAgent ip : bytes) (r : Request) :
  NetURL.readRequest target userAgent = Some r ->
  noRouteHandler Page GetPageByName cfg assetsFS {| Req := r; ClientIP := ip |}
    = Ok apiNotFound ->
  Go.HasPrefix (Path (Url r)) (apiRoutePrefix ++ lit "/") = true.
Proof.
  intros Hread Hresp.
  (* the raw target is under the prefix *)
  assert (Go.HasPrefix (RequestURI r) (lit "/api/") = true) as Hraw.
  { unfold noRouteHandler in Hresp. cbn [Req] in Hresp.
    change (apiRoutePrefix ++ lit "/") with (lit "/api/") in Hresp.
    destruct (Go.HasPrefix (RequestURI r) (lit "/api/")); [done|].
    simpl in Hresp.
    by destruct (Open assetsFS siteDefaultDocument) as [[index|] err]. }
  unfold NetURL.readRequest in Hread.
  destruct (NetURL.ParseRequestURI target) as [u|] eqn:Hparse; [|done].
  injection Hread as <-. cbn [RequestURI Url] in *.
  apply HasPrefix_true in Hraw as [Hlen Htake].
  rewrite drop_0 in Htake.
  assert (target = lit "/api/" ++ drop 5 target) as Htarget.
  { rewrite <- Htake. symmetry. apply take_drop. }
  (* the path is the decoding of a text that starts with the prefix *)
  unfold NetURL.ParseRequestURI in Hparse.
  destruct (existsb NetURL.isCTL target); [done|].
  destruct (Go.HasPrefix target (lit "/")); [|done].
  assert (exists rest, NetURL.unescape (lit "/api/" ++ rest) = Some (Path u))
    as [rest Hrest].
  { destruct (Go.Index target (lit "?")) as [i|] eqn:Ei.
    - assert (5 <= i) as Hi.
      { apply Index_Some in Ei as [Hocc _].
        apply (occurs_at_single x3f) in Hocc. rewrite Htarget in Hocc.
        do 5 (destruct i as [|i]; [done|]). lia. }
      exists (take (i - 5) (drop 5 target)).
      destruct (NetURL.unescape (take i target)) as [path|] eqn:Hu; [|done].
      injection Hparse as <-. cbn [Path]. rewrite <- Hu.
      rewrite Htarget at 2. rewrite take_app_ge by (simpl; lia). done.
    - exists (drop 5 target).
      destruct (NetURL.unescape target) as [path|] eqn:Hu; [|done].
      injection Hparse as <-. cbn [Path]. by rewrite <- Htarget. }
  apply unescape_api in Hrest as [p' ->].
  apply HasPrefix_true. split; [rewrite length_app; simpl; lia|].
  rewrite drop_0. by rewrite take_app_length.
Qed.

Lemma api_not_found_path_under_prefix_witness :
  Go.HasPrefix (lit "/api/v1/%6eope") (apiRoutePrefix ++ lit "/") = true
  /\ exists r,
       NetURL.readRequest (lit "/api/v1/%6eope?x=1") (lit "curl/8.5.0")
         = Some r
       /\ Path (Url r) = lit "/api/v1/nope"
       /\ Go.HasPrefix (Path (Url r)) (apiRoutePrefix ++ lit "/") = true.
Proof.
  split; [done|].
  eexists. split; [by vm_compute|]. split; [done|].
  eapply (api_not_found_path_under_prefix unit registry_usual cfg_usual
            assets_usual (lit "/api/v1/%6eope?x=1") (lit "curl/8.5.0")
            (lit "192.0.2.7")); by vm_compute.
Defined.
